(** * BackProjector: a shallow embedding of [src/backprojector.h]

    The header declares the class [relion::BackProjector] (a Fourier-space
    gridding accumulator on top of [Projector]) and defines inline its
    constructor, its assignment operator, the dispatcher
    [set2DFourierTransform] and the four [decenter_*] helpers.  The other
    members are only declared here; where a property of one of them is
    studied, the member is modelled from the design document and the
    definition says so.

    Conventions.
    - [int] and [long int] values are integers of [Z]; the header performs no
      integer arithmetic that could leave the machine range for arrays that
      fit in memory (indices are bounded by the array sizes).
    - [DOUBLE] is idealised as the exact rationals [Qc]: every property below
      is algebraic and is stated for exact arithmetic.
    - Objects live in a store indexed by addresses, so that the aliasing test
      [&op != this] of the assignment operator can be expressed. *)

From Stdlib Require Import ZArith QArith Qround Qcanon Lia List String Permutation.
From stdpp Require Import base option list gmap.

Open Scope Z_scope.

(* ================================================================== *)
(** * Part I. Definitions *)
(* ================================================================== *)

(** ** Scalars *)

Abbreviation DOUBLE := Qc.

(** [(DOUBLE) n] for an [int] [n]. *)
Definition DOUBLE_of_int (n : Z) : DOUBLE := Q2Qc (inject_Z n).

(** The literals [1.9] and [15] of the constructor's default arguments. *)
Definition DOUBLE_1_9 : DOUBLE := Q2Qc (19 # 10).
Definition DOUBLE_15 : DOUBLE := Q2Qc (15 # 1).

Record Complex : Type := mkComplex { real : DOUBLE; imag : DOUBLE }.

Definition Czero : Complex := mkComplex 0%Qc 0%Qc.
Definition Cadd (a b : Complex) : Complex :=
  mkComplex (real a + real b)%Qc (imag a + imag b)%Qc.
Definition conj (a : Complex) : Complex := mkComplex (real a) (- imag a)%Qc.
(** A complex number times a real factor. *)
Definition Cscale (c : DOUBLE) (a : Complex) : Complex :=
  mkComplex (c * real a)%Qc (c * imag a)%Qc.

(** ** Arrays

    [MultidimArray<T>] keeps its elements in one flat block, row-major in
    [(k, i, j)], together with the logical index of its first element. *)

Record MultidimArray (T : Type) : Type := mkArray {
  zdim : Z; ydim : Z; xdim : Z;
  zinit : Z; yinit : Z; xinit : Z;
  mdata : list T
}.
Arguments mkArray {T}.
Arguments zdim {T}. Arguments ydim {T}. Arguments xdim {T}.
Arguments zinit {T}. Arguments yinit {T}. Arguments xinit {T}.
Arguments mdata {T}.

Definition FileName : Type := string.

(** A 3x3 orientation matrix, [Matrix2D<DOUBLE>], by rows. *)
Record Matrix2D : Type := mkMatrix {
  m00 : DOUBLE; m01 : DOUBLE; m02 : DOUBLE;
  m10 : DOUBLE; m11 : DOUBLE; m12 : DOUBLE;
  m20 : DOUBLE; m21 : DOUBLE; m22 : DOUBLE
}.

(** Modelled from the spec: the symmetry object is the ordered list of the
    non-identity 3x3 rotations of the point group (the identity is implicit).
    The class [SymList] itself comes from [src/symmetries.h], which is not
    part of this header. *)
Definition SymList : Type := list Matrix2D.

(** ** Collaborators

    What the header uses from the headers it includes: the tabulated blob
    class [TabFtBlob] with its [initialise] member, the symmetry reader
    [SymList::read_sym_file], the interpolator code [TRILINEAR] and
    [MultidimArray::getDim]. *)

Class Collaborators : Type := {
  TabFtBlob : Type;
  TabFtBlob_initialise : DOUBLE -> DOUBLE -> Z -> Z -> TabFtBlob -> TabFtBlob;
  read_sym_file : FileName -> SymList -> SymList;
  TRILINEAR : Z;
  getDim : MultidimArray Complex -> Z
}.

(** The result of a call that may raise an error. *)
Inductive outcome (A : Type) : Type :=
  | Returned (a : A)
  | Thrown (msg : string).
Arguments Returned {A}.
Arguments Thrown {A}.

(** ** The object *)

Section Object.
Context `{Collaborators}.

(** The fields of [Projector] that [BackProjector] inherits, followed by its
    own ([weight], [tab_ftblob], [SL]). *)
Record BackProjector : Type := mkBackProjector {
  data : MultidimArray Complex;
  ori_size : Z;
  pad_size : Z;
  r_max : Z;
  r_min_nn : Z;
  interpolator : Z;
  padding_factor : Z;
  ref_dim : Z;
  data_dim : Z;
  weight : MultidimArray DOUBLE;
  tab_ftblob : TabFtBlob;
  SL : SymList
}.

Definition set_data v (o : BackProjector) :=
  mkBackProjector v (ori_size o) (pad_size o) (r_max o) (r_min_nn o) (interpolator o)
    (padding_factor o) (ref_dim o) (data_dim o) (weight o) (tab_ftblob o) (SL o).
Definition set_ori_size v (o : BackProjector) :=
  mkBackProjector (data o) v (pad_size o) (r_max o) (r_min_nn o) (interpolator o)
    (padding_factor o) (ref_dim o) (data_dim o) (weight o) (tab_ftblob o) (SL o).
Definition set_pad_size v (o : BackProjector) :=
  mkBackProjector (data o) (ori_size o) v (r_max o) (r_min_nn o) (interpolator o)
    (padding_factor o) (ref_dim o) (data_dim o) (weight o) (tab_ftblob o) (SL o).
Definition set_r_max v (o : BackProjector) :=
  mkBackProjector (data o) (ori_size o) (pad_size o) v (r_min_nn o) (interpolator o)
    (padding_factor o) (ref_dim o) (data_dim o) (weight o) (tab_ftblob o) (SL o).
Definition set_r_min_nn v (o : BackProjector) :=
  mkBackProjector (data o) (ori_size o) (pad_size o) (r_max o) v (interpolator o)
    (padding_factor o) (ref_dim o) (data_dim o) (weight o) (tab_ftblob o) (SL o).
Definition set_interpolator v (o : BackProjector) :=
  mkBackProjector (data o) (ori_size o) (pad_size o) (r_max o) (r_min_nn o) v
    (padding_factor o) (ref_dim o) (data_dim o) (weight o) (tab_ftblob o) (SL o).
Definition set_padding_factor v (o : BackProjector) :=
  mkBackProjector (data o) (ori_size o) (pad_size o) (r_max o) (r_min_nn o) (interpolator o)
    v (ref_dim o) (data_dim o) (weight o) (tab_ftblob o) (SL o).
Definition set_ref_dim v (o : BackProjector) :=
  mkBackProjector (data o) (ori_size o) (pad_size o) (r_max o) (r_min_nn o) (interpolator o)
    (padding_factor o) v (data_dim o) (weight o) (tab_ftblob o) (SL o).
Definition set_data_dim v (o : BackProjector) :=
  mkBackProjector (data o) (ori_size o) (pad_size o) (r_max o) (r_min_nn o) (interpolator o)
    (padding_factor o) (ref_dim o) v (weight o) (tab_ftblob o) (SL o).
Definition set_weight v (o : BackProjector) :=
  mkBackProjector (data o) (ori_size o) (pad_size o) (r_max o) (r_min_nn o) (interpolator o)
    (padding_factor o) (ref_dim o) (data_dim o) v (tab_ftblob o) (SL o).
Definition set_tab_ftblob v (o : BackProjector) :=
  mkBackProjector (data o) (ori_size o) (pad_size o) (r_max o) (r_min_nn o) (interpolator o)
    (padding_factor o) (ref_dim o) (data_dim o) (weight o) v (SL o).
Definition set_SL v (o : BackProjector) :=
  mkBackProjector (data o) (ori_size o) (pad_size o) (r_max o) (r_min_nn o) (interpolator o)
    (padding_factor o) (ref_dim o) (data_dim o) (weight o) (tab_ftblob o) v.

(** *** Constructor

    [this] is the object as the base-class and member default constructors
    left it.  An argument the caller leaves out is [None] and takes the
    default written in the signature. *)
Definition BackProjector_ctor (this : BackProjector)
    (_ori_size _ref_dim : Z) (fn_sym : FileName)
    (_interpolator _padding_factor_3d _r_min_nn _blob_order : option Z)
    (_blob_radius _blob_alpha : option DOUBLE) (_data_dim : option Z)
    : BackProjector :=
  let _interpolator := default TRILINEAR _interpolator in
  let _padding_factor_3d := default 2 _padding_factor_3d in
  let _r_min_nn := default 10 _r_min_nn in
  let _blob_order := default 0 _blob_order in
  let _blob_radius := default DOUBLE_1_9 _blob_radius in
  let _blob_alpha := default DOUBLE_15 _blob_alpha in
  let _data_dim := default 2 _data_dim in
  (* Store original dimension *)
  let this := set_ori_size _ori_size this in
  (* Set dimensionality of the references *)
  let this := set_ref_dim _ref_dim this in
  (* and of the data *)
  let this := set_data_dim _data_dim this in
  (* Set the symmetry object *)
  let this := set_SL (read_sym_file fn_sym (SL this)) this in
  (* Padding factor for the map *)
  let this := set_padding_factor _padding_factor_3d this in
  (* Interpolation scheme *)
  let this := set_interpolator _interpolator this in
  (* Minimum radius for NN interpolation *)
  let this := set_r_min_nn _r_min_nn this in
  (* Precalculate tabulated ftblob values *)
  set_tab_ftblob
    (TabFtBlob_initialise
       (_blob_radius * DOUBLE_of_int (padding_factor this))%Qc
       _blob_alpha _blob_order 10000 (tab_ftblob this))
    this.

(** *** Assignment

    Objects are held in a store; [this] and [op] are addresses.  The member
    assignments copy values: in the store model each field of the target
    becomes the field of the source. *)
Definition address : Type := positive.

Definition operator_assign (this op : address) (h : gmap address BackProjector)
    : option (gmap address BackProjector) :=
  if decide (op <> this) then
    src ← h !! op;
    tgt ← h !! this;
    (* Projector stuff *)
    let tgt := set_data (data src) tgt in
    let tgt := set_ori_size (ori_size src) tgt in
    let tgt := set_pad_size (pad_size src) tgt in
    let tgt := set_r_max (r_max src) tgt in
    let tgt := set_r_min_nn (r_min_nn src) tgt in
    let tgt := set_interpolator (interpolator src) tgt in
    let tgt := set_padding_factor (padding_factor src) tgt in
    let tgt := set_ref_dim (ref_dim src) tgt in
    let tgt := set_data_dim (data_dim src) tgt in
    (* BackProjector stuff *)
    let tgt := set_weight (weight src) tgt in
    let tgt := set_tab_ftblob (tab_ftblob src) tgt in
    let tgt := set_SL (SL src) tgt in
    Some (<[this := tgt]> h)
  else
    _ ← h !! this;
    Some h.

(** The fields listed by the assignment operator agree on two objects. *)
Definition same_fields (a b : BackProjector) : Prop :=
  data a = data b /\ ori_size a = ori_size b /\ pad_size a = pad_size b /\
  r_max a = r_max b /\ r_min_nn a = r_min_nn b /\ interpolator a = interpolator b /\
  padding_factor a = padding_factor b /\ ref_dim a = ref_dim b /\
  data_dim a = data_dim b /\ weight a = weight b /\
  tab_ftblob a = tab_ftblob b /\ SL a = SL b.

(** *** Calls that can fail

    A member call is a function of the object state that either returns or
    throws; the state it leaves is kept in both cases. *)

Definition Call (A : Type) : Type := BackProjector -> outcome A * BackProjector.

#[export] Instance call_ret : MRet Call := fun A a s => (Returned a, s).
#[export] Instance call_bind : MBind Call := fun A B k c s =>
  match c s with
  | (Returned a, s') => k a s'
  | (Thrown msg, s') => (Thrown msg, s')
  end.

(** Modelled from the spec: [REPORT_ERROR] is a macro of the error header,
    which is not part of this file; a dimension mismatch is a fatal error
    that aborts the current call and is surfaced to the caller.  The macro
    therefore throws, and no statement after it runs. *)
Definition REPORT_ERROR {A} (msg : string) : Call A := fun s => (Thrown msg, s).

Definition read_ref_dim : Call Z := fun s => (Returned (ref_dim s), s).

(** *** [set2DFourierTransform]

    The three insertion members are declared in the header and defined
    elsewhere; the dispatcher is studied for arbitrary implementations of
    them.  A null [Mweight] pointer is [None]. *)
Section Dispatch.
Variables backrotate2D backrotate3D backproject :
  MultidimArray Complex -> Matrix2D -> bool -> option (MultidimArray DOUBLE) -> Call unit.

Definition set2DFourierTransform (img_in : MultidimArray Complex)
    (A : Matrix2D) (inv : bool) (Mweight : option (MultidimArray DOUBLE)) : Call unit :=
  (* Back-rotation of a 3D Fourier Transform *)
  if getDim img_in =? 3 then
    rd ← read_ref_dim;
    (if negb (rd =? 3)
     then REPORT_ERROR "Backprojector::set3DFourierTransform%%ERROR: Dimension of the data array should be 3"
     else mret tt) ;;
    backrotate3D img_in A inv Mweight
  else
    rd ← read_ref_dim;
    match rd with
    | 2 => backrotate2D img_in A inv Mweight
    | 3 => backproject img_in A inv Mweight
    | _ => REPORT_ERROR "Backprojector::set2DSlice%%ERROR: Dimension of the data array should be 2 or 3"
    end.

End Dispatch.
End Object.

(** ** Element access and the FFTW traversal

    The accessors and the traversal are macros of the array and FFTW headers.
    [DIRECT_A3D_ELEM] addresses the block by physical indices, [A3D_ELEM] by
    logical indices (physical index plus the logical index of the first
    element).  An access that falls outside the block has no defined
    behaviour in C++; here it yields [None] and the enclosing call fails. *)

Definition with_mdata {T U} (v : MultidimArray T) (d : list U) : MultidimArray U :=
  mkArray (zdim v) (ydim v) (xdim v) (zinit v) (yinit v) (xinit v) d.

Definition YXSIZE {T} (v : MultidimArray T) : Z := ydim v * xdim v.

Definition direct_offset {T} (v : MultidimArray T) (k i j : Z) : Z :=
  k * YXSIZE v + i * xdim v + j.

Definition DIRECT_A3D_ELEM {T} (v : MultidimArray T) (k i j : Z) : option T :=
  let n := direct_offset v k i j in
  if 0 <=? n then mdata v !! Z.to_nat n else None.

Definition A3D_ELEM {T} (v : MultidimArray T) (k i j : Z) : option T :=
  DIRECT_A3D_ELEM v (k - zinit v) (i - yinit v) (j - xinit v).

(** [DIRECT_A3D_ELEM(v, k, i, j) = x]. *)
Definition DIRECT_A3D_ELEM_assign {T} (v : MultidimArray T) (k i j : Z) (x : T)
    : option (MultidimArray T) :=
  let n := direct_offset v k i j in
  if (0 <=? n) && (n <? Z.of_nat (length (mdata v)))
  then Some (with_mdata v (<[Z.to_nat n := x]> (mdata v)))
  else None.

(** [v.initZeros()]: every element of the block becomes zero, the shape stays. *)
Definition initZeros {T} (zero : T) (v : MultidimArray T) : MultidimArray T :=
  with_mdata v (replicate (length (mdata v)) zero).

(** The class invariant of an array: the block has one element per index. *)
Definition well_sized {T} (v : MultidimArray T) : Prop :=
  0 <= zdim v /\ 0 <= ydim v /\ 0 <= xdim v /\
  Z.of_nat (length (mdata v)) = zdim v * ydim v * xdim v.

(** The map from a physical index of a Fourier transform in FFTW layout to
    its logical frequency, as [FOR_ALL_ELEMENTS_IN_FFTW_TRANSFORM] binds
    [kp, ip, jp] next to [k, i, j].  It depends on the shape of the array. *)
Class FftwLayout : Type := {
  FFTW_logical : Z -> Z -> Z -> Z * Z * Z -> Z * Z * Z
}.

(** The single and double precision element types with their zeros and the
    two conversions between them. *)
Class Precisions : Type := {
  float : Type;
  double : Type;
  float_zero : float;
  double_zero : double;
  double_of_float : float -> double;
  float_of_double : double -> float
}.

(** A loop over a list of indices whose body may fail. *)
Fixpoint for_each {I S : Type} (body : I -> S -> option S) (l : list I) (s : S)
    : option S :=
  match l with
  | [] => Some s
  | x :: l' => s' ← body x s; for_each body l' s'
  end.

Section Decenter.
Context `{FftwLayout} `{Precisions}.

(** The physical indices in the order of the three nested loops. *)
Definition FFTW_elements {T} (V : MultidimArray T) : list (Z * Z * Z) :=
  k ← seqZ 0 (zdim V); i ← seqZ 0 (ydim V); j ← seqZ 0 (xdim V); [(k, i, j)].

Definition FOR_ALL_ELEMENTS_IN_FFTW_TRANSFORM {T S} (V : MultidimArray T)
    (body : Z * Z * Z -> Z * Z * Z -> S -> option S) (s : S) : option S :=
  for_each (fun kij => body kij (FFTW_logical (zdim V) (ydim V) (xdim V) kij))
           (FFTW_elements V) s.

Definition decenter_fd (Min : MultidimArray float) (Mout : MultidimArray double)
    (my_rmax2 : Z) : option (MultidimArray double) :=
  (* Mout should already have the right size; initialize to zero *)
  let Mout := initZeros double_zero Mout in
  FOR_ALL_ELEMENTS_IN_FFTW_TRANSFORM Mout
    (fun '(k, i, j) '(kp, ip, jp) Mout =>
       if kp * kp + ip * ip + jp * jp <=? my_rmax2
       then x ← A3D_ELEM Min kp ip jp;
            DIRECT_A3D_ELEM_assign Mout k i j (double_of_float x)
       else Some Mout)
    Mout.

Definition decenter_ff (Min : MultidimArray double) (Mout : MultidimArray double)
    (my_rmax2 : Z) : option (MultidimArray double) :=
  let Mout := initZeros double_zero Mout in
  FOR_ALL_ELEMENTS_IN_FFTW_TRANSFORM Mout
    (fun '(k, i, j) '(kp, ip, jp) Mout =>
       if kp * kp + ip * ip + jp * jp <=? my_rmax2
       then x ← A3D_ELEM Min kp ip jp;
            DIRECT_A3D_ELEM_assign Mout k i j x
       else Some Mout)
    Mout.

(** The overload of [decenter_ff] that writes a single-precision array: the
    assignment converts implicitly. *)
Definition decenter_ff_float (Min : MultidimArray double) (Mout : MultidimArray float)
    (my_rmax2 : Z) : option (MultidimArray float) :=
  let Mout := initZeros float_zero Mout in
  FOR_ALL_ELEMENTS_IN_FFTW_TRANSFORM Mout
    (fun '(k, i, j) '(kp, ip, jp) Mout =>
       if kp * kp + ip * ip + jp * jp <=? my_rmax2
       then x ← A3D_ELEM Min kp ip jp;
            DIRECT_A3D_ELEM_assign Mout k i j (float_of_double x)
       else Some Mout)
    Mout.

Definition decenter_cc (Min : MultidimArray Complex) (Mout : MultidimArray Complex)
    (my_rmax2 : Z) : option (MultidimArray Complex) :=
  let Mout := initZeros Czero Mout in
  FOR_ALL_ELEMENTS_IN_FFTW_TRANSFORM Mout
    (fun '(k, i, j) '(kp, ip, jp) Mout =>
       if kp * kp + ip * ip + jp * jp <=? my_rmax2
       then x ← A3D_ELEM Min kp ip jp;
            DIRECT_A3D_ELEM_assign Mout k i j x
       else Some Mout)
    Mout.

(** *** The copy stated once

    The gridded-to-FFT-layout copy of the design notes, parameterised by the
    element types and a numeric conversion [conv]: the output block is
    tabulated position by position.  The element at block position [n] has
    physical index [physical_index n]; it receives the converted input element
    at its logical frequency when that frequency lies within [my_rmax2] and
    zero otherwise. *)
Definition physical_index {T} (V : MultidimArray T) (n : Z) : Z * Z * Z :=
  (n / YXSIZE V, (n mod YXSIZE V) / xdim V, n mod xdim V).

Definition copied_element {A B T} (conv : A -> B) (zero : B)
    (Min : MultidimArray A) (V : MultidimArray T) (my_rmax2 : Z) (kij : Z * Z * Z)
    : option B :=
  let '(kp, ip, jp) := FFTW_logical (zdim V) (ydim V) (xdim V) kij in
  if kp * kp + ip * ip + jp * jp <=? my_rmax2
  then conv <$> A3D_ELEM Min kp ip jp
  else Some zero.

Definition gridded_to_fft_layout_copy {A B} (conv : A -> B) (zero : B)
    (Min : MultidimArray A) (Mout : MultidimArray B) (my_rmax2 : Z)
    : option (MultidimArray B) :=
  cells ← mapM (fun n => copied_element conv zero Min Mout my_rmax2 (physical_index Mout n))
               (seqZ 0 (Z.of_nat (length (mdata Mout))));
  Some (with_mdata Mout cells).

(** What a caller may rely on after a decenter call that returned [Mres]:
    the shape of [Mout] is kept and each element is zero outside the sphere
    and the converted input element inside. *)
Definition decentered {A B} (conv : A -> B) (zero : B)
    (Min : MultidimArray A) (Mout : MultidimArray B) (my_rmax2 : Z)
    (Mres : MultidimArray B) : Prop :=
  (zdim Mres, ydim Mres, xdim Mres) = (zdim Mout, ydim Mout, xdim Mout) /\
  (zinit Mres, yinit Mres, xinit Mres) = (zinit Mout, yinit Mout, xinit Mout) /\
  forall k i j kp ip jp,
    0 <= k < zdim Mout -> 0 <= i < ydim Mout -> 0 <= j < xdim Mout ->
    FFTW_logical (zdim Mout) (ydim Mout) (xdim Mout) (k, i, j) = (kp, ip, jp) ->
    (my_rmax2 < kp * kp + ip * ip + jp * jp ->
       DIRECT_A3D_ELEM Mres k i j = Some zero) /\
    (kp * kp + ip * ip + jp * jp <= my_rmax2 ->
       exists x, A3D_ELEM Min kp ip jp = Some x /\
                 DIRECT_A3D_ELEM Mres k i j = Some (conv x)).

(** Every logical frequency that the loop reads lies inside the input block. *)
Definition reads_in_bounds {A B} (Min : MultidimArray A) (Mout : MultidimArray B)
    (my_rmax2 : Z) : Prop :=
  forall k i j kp ip jp,
    0 <= k < zdim Mout -> 0 <= i < ydim Mout -> 0 <= j < xdim Mout ->
    FFTW_logical (zdim Mout) (ydim Mout) (xdim Mout) (k, i, j) = (kp, ip, jp) ->
    kp * kp + ip * ip + jp * jp <= my_rmax2 ->
    is_Some (A3D_ELEM Min kp ip jp).

End Decenter.

(** The layout of a half transform as the FFT library produces it: along z
    and y the first [XSIZE] indices are the non-negative frequencies and the
    others wrap to negative ones; along x the index is the frequency. *)
Definition fftw_half_layout : FftwLayout := {|
  FFTW_logical := fun zd yd xd '(k, i, j) =>
    (if k <? xd then k else k - zd, if i <? xd then i else i - yd, j)
|}.

(** Both precisions idealised as the exact rationals; conversions are exact. *)
Definition exact_precisions : Precisions := {|
  float := Qc; double := Qc;
  float_zero := 0%Qc; double_zero := 0%Qc;
  double_of_float := fun x => x;
  float_of_double := fun x => x
|}.

(** The value that an integer-valued [double] takes when it is stored in a
    [float]: the integer rounded to 24 significant bits, ties to the even
    neighbour.  Integers beyond the range of [float] are left aside. *)
Definition round_to_24_bits (x : Z) : Z :=
  let a := Z.abs x in
  let e := Z.log2 a - 23 in
  if e <=? 0 then x
  else
    let q := a / 2 ^ e in
    let r := a mod 2 ^ e in
    let half := 2 ^ (e - 1) in
    let q := if (half <? r) || ((r =? half) && Z.odd q) then q + 1 else q in
    Z.sgn x * (q * 2 ^ e).

(** Both precisions restricted to integer-valued elements: widening is exact,
    narrowing rounds to the 24 significant bits of a [float]. *)
Definition integer_precisions : Precisions := {|
  float := Z; double := Z;
  float_zero := 0; double_zero := 0;
  double_of_float := fun x => x;
  float_of_double := round_to_24_bits
|}.

(** ** The accumulator of the design document

    [enforceHermitianSymmetry], [symmetrise] and the insertion members are
    declared in the header and defined in the implementation file.  They are
    modelled below from the design document, at its level of description: a
    grid is addressed by the signed logical frequencies [(kp, ip, jp)] and
    only its [jp >= 0] half is stored; the data grid holds complex values and
    the weight grid real ones. *)

(** What the two grids have in common: values can be added, conjugated (the
    identity on reals) and multiplied by a real factor. *)
Class Cell (T : Type) : Type := {
  cell_zero : T;
  cell_add : T -> T -> T;
  cell_conj : T -> T;
  cell_scale : DOUBLE -> T -> T
}.

#[export] Instance Complex_cell : Cell Complex :=
  {| cell_zero := Czero; cell_add := Cadd; cell_conj := conj; cell_scale := Cscale |}.
#[export] Instance DOUBLE_cell : Cell DOUBLE :=
  {| cell_zero := 0%Qc; cell_add := Qcplus; cell_conj := fun w => w;
     cell_scale := Qcmult |}.

(** The algebra of cell values that the properties below rely on. *)
Class CellLaws (T : Type) `{Cell T} : Prop := {
  cell_add_comm : forall a b : T, cell_add a b = cell_add b a;
  cell_add_assoc : forall a b c : T, cell_add a (cell_add b c) = cell_add (cell_add a b) c;
  cell_add_zero_r : forall a : T, cell_add a cell_zero = a;
  cell_conj_invol : forall a : T, cell_conj (cell_conj a) = a;
  cell_conj_add : forall a b : T, cell_conj (cell_add a b) = cell_add (cell_conj a) (cell_conj b);
  cell_conj_scale : forall c (a : T), cell_conj (cell_scale c a) = cell_scale c (cell_conj a);
  cell_conj_zero : cell_conj cell_zero = cell_zero;
  cell_scale_add_r : forall c (a b : T),
      cell_scale c (cell_add a b) = cell_add (cell_scale c a) (cell_scale c b);
  cell_scale_add_l : forall c d (a : T),
      cell_scale (c + d)%Qc a = cell_add (cell_scale c a) (cell_scale d a);
  cell_scale_mul : forall c d (a : T),
      cell_scale (c * d)%Qc a = cell_scale c (cell_scale d a);
  cell_scale_1 : forall a : T, cell_scale 1%Qc a = a;
  cell_scale_0 : forall a : T, cell_scale 0%Qc a = cell_zero;
  cell_scale_zero : forall c, cell_scale c cell_zero = cell_zero
}.

Definition Grid (T : Type) : Type := Z -> Z -> Z -> T.

Definition same_voxel (k i j kp ip jp : Z) : bool :=
  (k =? kp) && (i =? ip) && (j =? jp).

(** [G(kp, ip, jp) = v] and [G(kp, ip, jp) += v]. *)
Definition grid_set {T} (G : Grid T) (kp ip jp : Z) (v : T) : Grid T :=
  fun k i j => if same_voxel k i j kp ip jp then v else G k i j.
Definition grid_add_at {T} `{Cell T} (G : Grid T) (kp ip jp : Z) (v : T) : Grid T :=
  fun k i j => if same_voxel k i j kp ip jp then cell_add (G k i j) v else G k i j.

(** Modelled from the spec: the Hermitian fold.  A point of the [jp < 0]
    half-space stands for its partner [(-kp, -ip, -jp)] with the value
    conjugated, when the grid is read. *)
Definition hermitian_read {T} `{Cell T} (G : Grid T) (kp ip jp : Z) : T :=
  if jp <? 0 then cell_conj (G (- kp) (- ip) (- jp)) else G kp ip jp.

(** Modelled from the spec: the Hermitian fold when a value is added.  A
    target in the [jp < 0] half-space is replaced by its partner and the value
    is conjugated before it is added. *)
Definition hermitian_add {T} `{Cell T} (G : Grid T) (kp ip jp : Z) (v : T) : Grid T :=
  if jp <? 0 then grid_add_at G (- kp) (- ip) (- jp) (cell_conj v)
  else grid_add_at G kp ip jp v.

Definition DOUBLE_half : DOUBLE := Q2Qc (1 # 2).
Definition FLOOR (x : DOUBLE) : Z := Qfloor x.
(** Modelled from the spec: the nearest grid coordinate (a half rounds up;
    the design document does not say how ties are broken). *)
Definition ROUND (x : DOUBLE) : Z := FLOOR (x + DOUBLE_half)%Qc.

(** Modelled from the spec: the eight grid points around the point with
    coordinates [x] (along [jp]), [y] (along [ip]) and [z] (along [kp]), each
    with its trilinear weight, a product of [dx] or [1 - dx], [dy] or
    [1 - dy], and [dz] or [1 - dz]. *)
Definition trilinear_stencil (x y z : DOUBLE) : list (Z * Z * Z * DOUBLE) :=
  let x0 := FLOOR x in let dx := (x - DOUBLE_of_int x0)%Qc in
  let y0 := FLOOR y in let dy := (y - DOUBLE_of_int y0)%Qc in
  let z0 := FLOOR z in let dz := (z - DOUBLE_of_int z0)%Qc in
  [ (z0, y0, x0, ((1 - dz) * (1 - dy) * (1 - dx))%Qc);
    (z0, y0, x0 + 1, ((1 - dz) * (1 - dy) * dx)%Qc);
    (z0, y0 + 1, x0, ((1 - dz) * dy * (1 - dx))%Qc);
    (z0, y0 + 1, x0 + 1, ((1 - dz) * dy * dx)%Qc);
    (z0 + 1, y0, x0, (dz * (1 - dy) * (1 - dx))%Qc);
    (z0 + 1, y0, x0 + 1, (dz * (1 - dy) * dx)%Qc);
    (z0 + 1, y0 + 1, x0, (dz * dy * (1 - dx))%Qc);
    (z0 + 1, y0 + 1, x0 + 1, (dz * dy * dx)%Qc) ].

(** Modelled from the spec: the trilinear value of a grid at a point, the
    weighted sum of the eight surrounding grid values, each read through the
    Hermitian fold. *)
Definition interpolate {T} `{Cell T} (G : Grid T) (x y z : DOUBLE) : T :=
  fold_left (fun acc '(k, i, j, c) => cell_add acc (cell_scale c (hermitian_read G k i j)))
            (trilinear_stencil x y z) cell_zero.

(** Matrices act on column vectors [(x, y, z)]. *)
Definition Matrix_apply (A : Matrix2D) (x y z : DOUBLE) : DOUBLE * DOUBLE * DOUBLE :=
  ((m00 A * x + m01 A * y + m02 A * z)%Qc,
   (m10 A * x + m11 A * y + m12 A * z)%Qc,
   (m20 A * x + m21 A * y + m22 A * z)%Qc).

Definition Matrix_identity : Matrix2D :=
  mkMatrix 1%Qc 0%Qc 0%Qc 0%Qc 1%Qc 0%Qc 0%Qc 0%Qc 1%Qc.

Definition Matrix_det (A : Matrix2D) : DOUBLE :=
  (m00 A * (m11 A * m22 A - m12 A * m21 A)
   - m01 A * (m10 A * m22 A - m12 A * m20 A)
   + m02 A * (m10 A * m21 A - m11 A * m20 A))%Qc.

(** Modelled from the spec: [A^-1], used instead of [A] when [inv] is set; it
    is computed by cofactors ([Matrix2D::inv] is not part of this header). *)
Definition Matrix_inv (A : Matrix2D) : Matrix2D :=
  let d := Matrix_det A in
  mkMatrix
    ((m11 A * m22 A - m12 A * m21 A) / d)%Qc
    ((m02 A * m21 A - m01 A * m22 A) / d)%Qc
    ((m01 A * m12 A - m02 A * m11 A) / d)%Qc
    ((m12 A * m20 A - m10 A * m22 A) / d)%Qc
    ((m00 A * m22 A - m02 A * m20 A) / d)%Qc
    ((m02 A * m10 A - m00 A * m12 A) / d)%Qc
    ((m10 A * m21 A - m11 A * m20 A) / d)%Qc
    ((m01 A * m20 A - m00 A * m21 A) / d)%Qc
    ((m00 A * m11 A - m01 A * m10 A) / d)%Qc.

(** *** [enforceHermitianSymmetry] *)

(** Modelled from the spec: what [enforceHermitianSymmetry], whose body is
    not in the header, does at one voxel of the [jp = 0] plane of one grid:
    average the value with the conjugate of its partner and write the
    averaged value back to both sides. *)
Definition hermitian_average {T} `{Cell T} (G : Grid T) (kp ip : Z) : Grid T :=
  let a := cell_scale DOUBLE_half
             (cell_add (G kp ip 0) (cell_conj (G (- kp) (- ip) 0))) in
  grid_set (grid_set G kp ip 0 a) (- kp) (- ip) 0 (cell_conj a).

(** Modelled from the spec: [enforceHermitianSymmetry], whose body is not in
    the header.  For every voxel with [jp = 0], average [D(kp, ip, 0)] with
    [conj(D(-kp, -ip, 0))] and [W(kp, ip, 0)] with [W(-kp, -ip, 0)], and write
    the averaged value back to both sides.  [plane] lists the [(kp, ip)] of
    the voxels of the [jp = 0] plane in the order they are visited. *)
Definition enforceHermitianSymmetry (plane : list (Z * Z))
    (DW : Grid Complex * Grid DOUBLE) : Grid Complex * Grid DOUBLE :=
  fold_left (fun '(D, W) '(kp, ip) => (hermitian_average D kp ip, hermitian_average W kp ip))
            plane DW.

(** The average that the pair [(kp, ip)], [(-kp, -ip)] of the [jp = 0] plane
    of [G0] is to receive at [(kp, ip)]. *)
Definition hermitian_target {T} `{Cell T} (G0 : Grid T) (kp ip : Z) : T :=
  cell_scale DOUBLE_half (cell_add (G0 kp ip 0) (cell_conj (G0 (- kp) (- ip) 0))).

(** A pair is settled when both sides hold their averages. *)
Definition settled {T} `{Cell T} (G0 G : Grid T) (kp ip : Z) : Prop :=
  G kp ip 0 = hermitian_target G0 kp ip /\
  G (- kp) (- ip) 0 = hermitian_target G0 (- kp) (- ip).

(** While the plane is traversed every pair is either untouched or settled,
    and nothing changes off the plane. *)
Definition traversing {T} `{Cell T} (G0 G : Grid T) : Prop :=
  (forall kp ip jp, jp <> 0 -> G kp ip jp = G0 kp ip jp) /\
  (forall kp ip,
     (G kp ip 0 = G0 kp ip 0 /\ G (- kp) (- ip) 0 = G0 (- kp) (- ip) 0)
     \/ settled G0 G kp ip).

(** Modelled from the spec: the [jp = 0] plane of a grid of side [pad_size],
    addressed by [kp] and [ip] in [-pad_size/2 .. pad_size/2 - 1]. *)
Definition jp0_plane (pad_size : Z) : list (Z * Z) :=
  kp ← seqZ (- (pad_size / 2)) (2 * (pad_size / 2));
  ip ← seqZ (- (pad_size / 2)) (2 * (pad_size / 2));
  [(kp, ip)].

(** *** [symmetrise] *)

(** Modelled from the spec: what [symmetrise], whose body is not in the
    header, does to one grid.  For each voxel [v] inside [my_rmax2] the
    interpolated value of the grid at [R v] is accumulated into the value at
    [v], for every [R] of the list; the values read are those before the
    call, so that the final value at [v] is [(I + sum R)] applied to the
    grid. *)
Definition symmetrise_grid {T} `{Cell T} (S : SymList) (my_rmax2 : Z) (G : Grid T)
    : Grid T :=
  fun kp ip jp =>
    if (0 <=? jp) && (kp * kp + ip * ip + jp * jp <=? my_rmax2)
    then fold_left
           (fun acc R =>
              let '(x, y, z) := Matrix_apply R (DOUBLE_of_int jp) (DOUBLE_of_int ip)
                                              (DOUBLE_of_int kp) in
              cell_add acc (interpolate G x y z))
           S (G kp ip jp)
    else G kp ip jp.

(** Modelled from the spec: [symmetrise], whose body is not in the header.
    If the symmetry list holds [n > 0] rotations, both grids are symmetrised;
    otherwise nothing happens. *)
Definition symmetrise (S : SymList) (my_rmax2 : Z)
    (DW : Grid Complex * Grid DOUBLE) : Grid Complex * Grid DOUBLE :=
  match S with
  | [] => DW
  | _ :: _ => (symmetrise_grid S my_rmax2 (fst DW), symmetrise_grid S my_rmax2 (snd DW))
  end.

(** A grid multiplied by a real factor. *)
Definition grid_scale {T} `{Cell T} (c : DOUBLE) (G : Grid T) : Grid T :=
  fun kp ip jp => cell_scale c (G kp ip jp).

(** *** [backproject]

    The body of the member is not in the header.  It is modelled from the
    common contract of the insertion members and its specialisation to a 2D
    image inserted into a 3D grid. *)

(** Modelled from the spec: the two interpolation kernels, [NEAREST] and
    [TRILINEAR]. *)
Inductive Kernel : Type := NEAREST | TRILINEAR_KERNEL.

(** Modelled from the spec: the geometry constants that an insertion reads. *)
Record Geometry : Type := mkGeometry {
  geo_r_max : Z;
  geo_padding_factor : Z;
  geo_r_min_nn : Z;
  geo_interpolator : Kernel
}.

(** Modelled from the spec: step 1 of the contract, skip the source sample
    at [(ip, jp)] if it lies beyond [r_max / padding_factor].  The radii are
    compared through their squares, for a positive padding factor. *)
Definition beyond_cutoff (g : Geometry) (ip jp : Z) : bool :=
  geo_r_max g * geo_r_max g
    <? geo_padding_factor g * geo_padding_factor g * (ip * ip + jp * jp).

(** Modelled from the spec: the kernel in force for a sample, nearest
    neighbour below the radius [r_min_nn] and the configured interpolator
    elsewhere. *)
Definition active_kernel (g : Geometry) (ip jp : Z) : Kernel :=
  if (0 <? geo_r_min_nn g) && (ip * ip + jp * jp <? geo_r_min_nn g * geo_r_min_nn g)
  then NEAREST else geo_interpolator g.

(** Modelled from the spec: step 4 of the contract, add the value [v] and the
    weight [w] at the nearest grid point, or distribute them over the eight
    surrounding grid points with their trilinear weights. *)
Definition splat (kernel : Kernel) (x y z : DOUBLE) (v : Complex) (w : DOUBLE)
    (DW : Grid Complex * Grid DOUBLE) : Grid Complex * Grid DOUBLE :=
  match kernel with
  | NEAREST =>
      (hermitian_add (fst DW) (ROUND z) (ROUND y) (ROUND x) v,
       hermitian_add (snd DW) (ROUND z) (ROUND y) (ROUND x) w)
  | TRILINEAR_KERNEL =>
      fold_left
        (fun DW '(k, i, j, c) =>
           (hermitian_add (fst DW) k i j (cell_scale c v),
            hermitian_add (snd DW) k i j (cell_scale c w)))
        (trilinear_stencil x y z) DW
  end.

(** Modelled from the spec: what a source sample [f] of weight [w] adds to
    the data grid.  Step 4 of the contract splats [f * w].  The comment on the
    member in the header says of the weight map only that it is used "rather
    than adding 1 to all relevant pixels in the weight array", which leaves
    the sample as it is.  The body is not in the header to decide between the
    two, so an insertion is modelled for either. *)
Inductive DataTerm : Type := SampleTimesWeight | SampleAlone.

(** Modelled from the spec: the value added to the data grid for a sample
    [f] of weight [w], under either reading. *)
Definition data_term (t : DataTerm) (w : DOUBLE) (f : Complex) : Complex :=
  match t with
  | SampleTimesWeight => Cscale w f
  | SampleAlone => f
  end.

(** Modelled from the spec: the contract for one source sample [f] with
    weight [w].  Its target is [padding_factor * A * (jp, ip, 0)], and
    what is splatted is the data term of the sample into the data grid and
    [w] into the weight grid. *)
Definition insert_sample (t : DataTerm) (g : Geometry) (A : Matrix2D) (ip jp : Z)
    (f : Complex) (w : DOUBLE) (DW : Grid Complex * Grid DOUBLE)
    : Grid Complex * Grid DOUBLE :=
  if beyond_cutoff g ip jp then DW
  else
    let '(x, y, z) := Matrix_apply A (DOUBLE_of_int jp) (DOUBLE_of_int ip) 0%Qc in
    let pf := DOUBLE_of_int (geo_padding_factor g) in
    splat (active_kernel g ip jp) (pf * x)%Qc (pf * y)%Qc (pf * z)%Qc
          (data_term t w f) w DW.

(** Modelled from the spec: step 3 of the contract, the weight of a sample is
    [Mweight[p]] if a map is supplied and 1 otherwise. *)
Definition source_weight (Mweight : option (Z -> Z -> DOUBLE)) (ip jp : Z) : DOUBLE :=
  match Mweight with Some Mw => Mw ip jp | None => 1%Qc end.

(** Modelled from the spec: [backproject], whose body is not in the header.
    [pixels] lists the logical frequencies [(ip, jp)] of the samples of the
    source image in row-major order; [Fin] and [Mweight] give the value and
    the weight of each. *)
Definition backproject (t : DataTerm) (g : Geometry) (pixels : list (Z * Z))
    (Fin : Z -> Z -> Complex) (A : Matrix2D) (inv : bool)
    (Mweight : option (Z -> Z -> DOUBLE))
    (DW : Grid Complex * Grid DOUBLE) : Grid Complex * Grid DOUBLE :=
  let A := if inv then Matrix_inv A else A in
  fold_left
    (fun DW '(ip, jp) =>
       insert_sample t g A ip jp (Fin ip jp) (source_weight Mweight ip jp) DW)
    pixels DW.

(** *** Insertions as lists of deposits

    An insertion adds values at grid points; what it adds and where does not
    depend on the grid.  The following definitions name the deposits of a
    sample and of a whole image. *)
Definition grid_zero {T} `{Cell T} : Grid T := fun _ _ _ => cell_zero.






(** *** Rotations with integer entries

    The operators of the point groups whose axes lie along the grid axes and
    diagonals (C2, C4, D2, D4, T, O in their standard orientation) have integer
    entries: they map grid points to grid points. *)
Record IntMatrix : Type := mkIntMatrix {
  z00 : Z; z01 : Z; z02 : Z;
  z10 : Z; z11 : Z; z12 : Z;
  z20 : Z; z21 : Z; z22 : Z
}.

Definition Matrix_of_IntMatrix (M : IntMatrix) : Matrix2D :=
  mkMatrix (DOUBLE_of_int (z00 M)) (DOUBLE_of_int (z01 M)) (DOUBLE_of_int (z02 M))
           (DOUBLE_of_int (z10 M)) (DOUBLE_of_int (z11 M)) (DOUBLE_of_int (z12 M))
           (DOUBLE_of_int (z20 M)) (DOUBLE_of_int (z21 M)) (DOUBLE_of_int (z22 M)).






(** The sum of a list of cell values. *)
Definition cell_sum {T} `{Cell T} (l : list T) : T := fold_right cell_add cell_zero l.





(** ** Sample data

    Small concrete inputs on which the definitions are run. *)






Definition unit_weight_grid : Grid DOUBLE := fun _ _ _ => 1%Qc.

(** The operators of C2 and of C4 about the z axis, with integer entries. *)
Definition int_rot_z_90 : IntMatrix := mkIntMatrix 0 (-1) 0 1 0 0 0 0 1.
Definition int_rot_z_180 : IntMatrix := mkIntMatrix (-1) 0 0 0 (-1) 0 0 0 1.
Definition int_rot_z_270 : IntMatrix := mkIntMatrix 0 1 0 (-1) 0 0 0 0 1.

(** The three-fold rotation about the diagonal (1, 1, 1): it permutes the
    axes.  Its square is missing from the list [[int_rot_diagonal]]. *)
Definition int_rot_diagonal : IntMatrix := mkIntMatrix 0 0 1 1 0 0 0 1 0.

(** The two-fold rotation about the axis (3/5, 4/5, 0): a rotation with
    rational entries that does not map grid points to grid points. *)
Definition rot_tilted_180 : Matrix2D :=
  mkMatrix (Q2Qc (-7 # 25)) (Q2Qc (24 # 25)) 0%Qc
           (Q2Qc (24 # 25)) (Q2Qc (7 # 25)) 0%Qc
           0%Qc 0%Qc (Q2Qc (-1 # 1)).


(** A data grid with the single value [i] at [(0, 1, 0)]: its [jp = 0] plane
    is not Hermitian. *)
Definition imaginary_spike : Grid Complex :=
  fun kp ip jp => if same_voxel kp ip jp 0 1 0 then mkComplex 0%Qc 1%Qc else Czero.

(** A data grid with the value 1 at [(0, 0, 1)] only, and one with the value
    1 at the origin and at [(0, 0, 1)]. *)
Definition axis_spike : Grid Complex :=
  fun kp ip jp => if same_voxel kp ip jp 0 0 1 then mkComplex 1%Qc 0%Qc else Czero.
Definition two_spikes : Grid Complex :=
  fun kp ip jp =>
    if same_voxel kp ip jp 0 0 0 || same_voxel kp ip jp 0 0 1
    then mkComplex 1%Qc 0%Qc else Czero.

(** A concrete set of collaborators, used to run the definitions: the blob
    table is represented by the list of parameter tuples it was initialised
    with, the symmetry reader keeps the list it is given, and [getDim] is 3
    for a volume, 2 for an image and 1 for a line. *)
Definition recording_collaborators : Collaborators := {|
  TabFtBlob := list (DOUBLE * DOUBLE * Z * Z);
  TabFtBlob_initialise := fun r a o n t => (r, a, o, n) :: t;
  read_sym_file := fun _ sl => sl;
  TRILINEAR := 1;
  getDim := fun img => if 1 <? zdim img then 3 else if 1 <? ydim img then 2 else 1
|}.

(** Arrays of 3 x 3 x 2 elements: a centred one, whose logical indices run
    over [-1..1], [-1..1] and [0..1], and one in FFTW layout with arbitrary
    prior contents. *)
Definition centred_reals : MultidimArray DOUBLE :=
  mkArray 3 3 2 (-1) (-1) 0 (DOUBLE_of_int <$> seqZ 1 18).
Definition fftw_reals : MultidimArray DOUBLE :=
  mkArray 3 3 2 0 0 0 (replicate 18 (DOUBLE_of_int 7)).
Definition centred_complex : MultidimArray Complex :=
  mkArray 3 3 2 (-1) (-1) 0 ((fun n => mkComplex (DOUBLE_of_int n) 1%Qc) <$> seqZ 1 18).
Definition fftw_complex : MultidimArray Complex :=
  mkArray 3 3 2 0 0 0 (replicate 18 (mkComplex 1%Qc 1%Qc)).

(** A line, an image and a volume, told apart by [getDim]. *)
Definition sample_image : MultidimArray Complex :=
  mkArray 1 2 2 0 0 0 (replicate 4 Czero).
Definition sample_volume : MultidimArray Complex :=
  mkArray 2 2 2 0 0 0 (replicate 8 Czero).

(** An object with a given [ref_dim], and stand-ins for the three insertion
    members that leave a distinct mark in [r_min_nn], to observe which of
    them ran. *)
Definition sample_object (rd : Z) : @BackProjector recording_collaborators :=
  @mkBackProjector recording_collaborators
    sample_volume 8 16 4 10 1 2 rd 2
    (mkArray 2 2 2 0 0 0 (replicate 8 0%Qc)) [] [].

Definition marking_member (mark : Z)
    : MultidimArray Complex -> Matrix2D -> bool -> option (MultidimArray DOUBLE) ->
      @Call recording_collaborators unit :=
  fun _ _ _ _ s => (Returned tt, set_r_min_nn mark s).

(** A store with two objects. *)
Definition sample_store : gmap positive (@BackProjector recording_collaborators) :=
  <[1%positive := sample_object 2]> (<[2%positive := sample_object 3]> ∅).

(** ** The remaining inline members

    [clear] and the copy constructor.  [clear] calls [weight.clear()] and
    [Projector::clear()], which are defined in the array and projector
    headers; both are parameters here.  [Projector::clear] is a member of the
    base class, so it acts on the inherited members only.  The destructor
    calls [clear] and then destroys the members and the base subobject; the
    end of an object's lifetime is not modelled. *)

Record ProjectorPart : Type := mkProjectorPart {
  p_data : MultidimArray Complex;
  p_ori_size : Z;
  p_pad_size : Z;
  p_r_max : Z;
  p_r_min_nn : Z;
  p_interpolator : Z;
  p_padding_factor : Z;
  p_ref_dim : Z;
  p_data_dim : Z
}.

Section Lifetime.
Context `{Collaborators}.
Variable MultidimArray_clear : MultidimArray DOUBLE -> MultidimArray DOUBLE.
Variable Projector_clear : ProjectorPart -> ProjectorPart.

(** The base-class subobject of a [BackProjector], read and replaced. *)
Definition Projector_of (o : BackProjector) : ProjectorPart :=
  mkProjectorPart (data o) (ori_size o) (pad_size o) (r_max o) (r_min_nn o)
    (interpolator o) (padding_factor o) (ref_dim o) (data_dim o).

Definition with_Projector (p : ProjectorPart) (o : BackProjector) : BackProjector :=
  mkBackProjector (p_data p) (p_ori_size p) (p_pad_size p) (p_r_max p) (p_r_min_nn p)
    (p_interpolator p) (p_padding_factor p) (p_ref_dim p) (p_data_dim p)
    (weight o) (tab_ftblob o) (SL o).

Definition clear (this : BackProjector) : BackProjector :=
  let this := set_weight (MultidimArray_clear (weight this)) this in
  with_Projector (Projector_clear (Projector_of this)) this.

(** [BackProjector(const BackProjector& op)]: the object under construction
    is at [this] in the store; it is cleared and then assigned from [op]. *)
Definition BackProjector_copy_ctor (this op : address) (h : gmap address BackProjector)
    : option (gmap address BackProjector) :=
  tgt ← h !! this;
  operator_assign this op (<[this := clear tgt]> h).

End Lifetime.

(** An array with every element converted by [f]; shape and origin stay. *)
Definition array_map {T U} (f : T -> U) (v : MultidimArray T) : MultidimArray U :=
  with_mdata v (f <$> mdata v).

(** Two arrays of the same shape, origin and number of elements. *)
Definition same_shape {T U} (v : MultidimArray T) (v' : MultidimArray U) : Prop :=
  (zdim v, ydim v, xdim v) = (zdim v', ydim v', xdim v') /\
  (zinit v, yinit v, xinit v) = (zinit v', yinit v', xinit v') /\
  length (mdata v) = length (mdata v').

(** Stand-ins for the two [clear] members, to run [clear]: the array loses
    its elements and its shape, the inherited sizes are reset. *)
Definition emptying_clear (v : MultidimArray DOUBLE) : MultidimArray DOUBLE :=
  mkArray 0 0 0 0 0 0 [].
Definition resetting_clear (p : ProjectorPart) : ProjectorPart :=
  mkProjectorPart (mkArray 0 0 0 0 0 0 []) (p_ori_size p) 0 0 (p_r_min_nn p)
    (p_interpolator p) (p_padding_factor p) (p_ref_dim p) (p_data_dim p).

(** A line: 1D for [getDim]. *)
Definition sample_line : MultidimArray Complex :=
  mkArray 1 1 4 0 0 0 (replicate 4 Czero).

(** An input array with the single element 9 at the origin, the value that
    [centred_reals] holds there. *)
Definition origin_only : MultidimArray DOUBLE := mkArray 1 1 1 0 0 0 [DOUBLE_of_int 9].

(** A store with three objects. *)
Definition three_objects : gmap positive (@BackProjector recording_collaborators) :=
  <[3%positive := sample_object 1]> sample_store.

(** An input array that is too small for the frequencies within
    [my_rmax2 = 1]: a single element at the origin. *)
Definition single_real : MultidimArray DOUBLE := mkArray 1 1 1 0 0 0 [DOUBLE_of_int 5].

(** A double-precision block of one element, [2^24 + 1], and a
    single-precision block of one element to receive it. *)
Definition odd_integer : MultidimArray (@double integer_precisions) :=
  mkArray 1 1 1 0 0 0 [16777217].

Definition single_float : MultidimArray (@float integer_precisions) :=
  mkArray 1 1 1 0 0 0 [0].

(* ================================================================== *)
(** * Part II. Properties *)
(* ================================================================== *)

Section ObjectFacts.
Context `{Collaborators}.

Lemma call_bind_returned {A B} (c : Call A) (k : A -> Call B) s a s' :
  c s = (Returned a, s') -> (c ≫= k) s = k a s'.
Proof. intros Hc. unfold mbind, call_bind. now rewrite Hc. Qed.

Lemma call_bind_thrown {A B} (c : Call A) (k : A -> Call B) s msg s' :
  c s = (Thrown msg, s') -> (c ≫= k) s = (Thrown msg, s').
Proof. intros Hc. unfold mbind, call_bind. now rewrite Hc. Qed.

Section DispatchFacts.
Variables backrotate2D backrotate3D backproject :
  MultidimArray Complex -> Matrix2D -> bool -> option (MultidimArray DOUBLE) -> Call unit.

#[local] Abbreviation set2D := (set2DFourierTransform backrotate2D backrotate3D backproject).

(** C1. A 2D image is handed to [backrotate2D] when [ref_dim = 2] and to
    [backproject] when [ref_dim = 3]; a 3D image with [ref_dim = 3] is handed
    to [backrotate3D]; in each case the call is made on the current object
    with [img_in], [A], [inv] and [Mweight] as received. *)
Theorem set2DFourierTransform_dispatch img_in A inv Mweight (s : BackProjector) :
  (getDim img_in = 2 -> ref_dim s = 2 ->
     set2D img_in A inv Mweight s = backrotate2D img_in A inv Mweight s) /\
  (getDim img_in = 2 -> ref_dim s = 3 ->
     set2D img_in A inv Mweight s = backproject img_in A inv Mweight s) /\
  (getDim img_in = 3 -> ref_dim s = 3 ->
     set2D img_in A inv Mweight s = backrotate3D img_in A inv Mweight s).
Proof.
  unfold set2DFourierTransform.
  repeat split; intros Hdim Href; rewrite Hdim; simpl.
  - rewrite (call_bind_returned read_ref_dim _ s (ref_dim s) s eq_refl).
    now rewrite Href.
  - rewrite (call_bind_returned read_ref_dim _ s (ref_dim s) s eq_refl).
    now rewrite Href.
  - rewrite (call_bind_returned read_ref_dim _ s (ref_dim s) s eq_refl).
    rewrite Href. simpl.
    now rewrite (call_bind_returned (mret tt) _ s tt s eq_refl).
Qed.

(** C2. A 3D image with [ref_dim <> 3], or a 2D image with [ref_dim] neither
    2 nor 3, makes the call throw; no insertion member runs and the object
    (in particular its data and weight arrays) is left as it was. *)
Theorem set2DFourierTransform_mismatch img_in A inv Mweight (s : BackProjector) :
  (getDim img_in = 3 /\ ref_dim s <> 3) \/
  (getDim img_in = 2 /\ ref_dim s <> 2 /\ ref_dim s <> 3) ->
  exists msg, set2D img_in A inv Mweight s = (Thrown msg, s).
Proof.
  unfold set2DFourierTransform.
  intros [[Hdim Href] | [Hdim [Href2 Href3]]]; rewrite Hdim; simpl;
    rewrite (call_bind_returned read_ref_dim _ s (ref_dim s) s eq_refl).
  - destruct (Z.eqb_spec (ref_dim s) 3) as [E | _]; [contradiction |]. simpl.
    eexists. now apply call_bind_thrown.
  - destruct (ref_dim s) as [| p | p] eqn:E; try (eexists; reflexivity).
    destruct p as [[| |] | [| |] |]; try (eexists; reflexivity); congruence.
Qed.

End DispatchFacts.

(** C8. The constructor builds the blob table by calling [initialise] with
    [_blob_radius * padding_factor], [_blob_alpha], [_blob_order] and 10000,
    where [padding_factor] is the member just set from [_padding_factor_3d]. *)
Theorem ctor_initialises_blob_table (this : BackProjector) o r fn ip pf rn bo br ba dd :
  tab_ftblob (BackProjector_ctor this o r fn ip pf rn bo br ba dd) =
    TabFtBlob_initialise
      (default DOUBLE_1_9 br * DOUBLE_of_int (default 2%Z pf))%Qc
      (default DOUBLE_15 ba) (default 0 bo) 10000 (tab_ftblob this)
  /\ padding_factor (BackProjector_ctor this o r fn ip pf rn bo br ba dd) = default 2 pf.
Proof. split; reflexivity. Qed.

(** C9. When the caller gives no interpolator, the constructed object has
    [interpolator = TRILINEAR]. *)
Theorem ctor_default_interpolator (this : BackProjector) o r fn pf rn bo br ba dd :
  interpolator (BackProjector_ctor this o r fn None pf rn bo br ba dd) = TRILINEAR.
Proof. reflexivity. Qed.

(** C10. Assigning an object to itself leaves the store, hence every field,
    unchanged; assigning between two distinct objects makes every field of
    the target equal to the source's and leaves the source as it was. *)
Theorem operator_assign_spec (h : gmap address BackProjector) (this op : address) (tgt src : BackProjector) :
  h !! this = Some tgt -> h !! op = Some src ->
  (op = this -> operator_assign this op h = Some h) /\
  (op <> this ->
     exists h', operator_assign this op h = Some h' /\
       (exists tgt', h' !! this = Some tgt' /\ same_fields tgt' src) /\
       h' !! op = Some src /\
       (forall a, a <> this -> h' !! a = h !! a)).
Proof.
  intros Hthis Hop. unfold operator_assign. split.
  - intros ->. destruct (decide (this <> this)) as [Hne | _]; [congruence |].
    now rewrite Hthis.
  - intros Hne. destruct (decide (op <> this)) as [_ | Heq]; [| contradiction].
    rewrite Hop, Hthis. simpl. eexists. split; [reflexivity |].
    split; [| split].
    + eexists. split; [apply lookup_insert_eq |].
      unfold same_fields. simpl. repeat split.
    + rewrite lookup_insert_ne by congruence. exact Hop.
    + intros a Ha. now rewrite lookup_insert_ne by congruence.
Qed.

End ObjectFacts.

(** ** The decenter helpers *)

Section DecenterFacts.
Context `{FftwLayout} `{Precisions}.

Lemma mapM_fmap_compose {A B C} (f : B -> option C) (g : A -> B) (l : list A) :
  mapM f (g <$> l) = mapM (fun x => f (g x)) l.
Proof. induction l as [| x l IH]; [reflexivity |]. rewrite fmap_cons. cbn [mapM]. now rewrite IH. Qed.

Lemma fmap_list_bind {A B C} (f : B -> C) (g : A -> list B) (l : list A) :
  f <$> (l ≫= g) = l ≫= (fun x => f <$> g x).
Proof.
  induction l as [| x l IH]; [reflexivity |].
  rewrite !bind_cons, fmap_app. now rewrite IH.
Qed.

Lemma bind_singleton_fmap {A B} (f : A -> B) (l : list A) :
  l ≫= (fun x => [f x]) = f <$> l.
Proof. induction l as [| x l IH]; [reflexivity |]. rewrite bind_cons, IH. reflexivity. Qed.

(** Consecutive blocks of [b] integers make up one run. *)
Lemma bind_seqZ_blocks (a b : Z) (n : nat) :
  0 <= b ->
  (seqZ 0 (Z.of_nat n) ≫= fun i => seqZ (a + i * b) b) = seqZ a (Z.of_nat n * b).
Proof.
  intros Hb. induction n as [| n IH].
  - reflexivity.
  - rewrite seqZ_S, bind_app, IH. rewrite bind_cons. cbn [mbind list_bind]. rewrite app_nil_r.
    replace (Z.of_nat (S n) * b) with (Z.of_nat n * b + b) by lia.
    rewrite seqZ_app by nia. f_equal; f_equal; lia.
Qed.

Lemma physical_index_offset {T} (V : MultidimArray T) k i j :
  0 <= k -> 0 <= i < ydim V -> 0 <= j < xdim V ->
  physical_index V (direct_offset V k i j) = (k, i, j).
Proof.
  intros Hk Hi Hj. unfold physical_index, direct_offset, YXSIZE.
  assert (Hr : 0 <= i * xdim V + j < ydim V * xdim V) by nia.
  assert (E1 : (k * (ydim V * xdim V) + i * xdim V + j) / (ydim V * xdim V) = k).
  { symmetry. apply Z.div_unique with (r := i * xdim V + j); [left; lia | ring]. }
  assert (E2 : (k * (ydim V * xdim V) + i * xdim V + j) mod (ydim V * xdim V)
               = i * xdim V + j).
  { symmetry. apply Z.mod_unique with (q := k); [left; lia | ring]. }
  assert (E3 : (i * xdim V + j) / xdim V = i).
  { symmetry. apply Z.div_unique with (r := j); [left; lia | ring]. }
  assert (E4 : (k * (ydim V * xdim V) + i * xdim V + j) mod xdim V = j).
  { symmetry. apply Z.mod_unique with (q := k * ydim V + i); [left; lia | ring]. }
  rewrite E1, E2, E3, E4. reflexivity.
Qed.

(** The traversal visits the block positions [0, 1, 2, ...] in order. *)
Lemma FFTW_elements_offsets {T} (V : MultidimArray T) :
  0 <= zdim V -> 0 <= ydim V -> 0 <= xdim V ->
  (fun '(k, i, j) => direct_offset V k i j) <$> FFTW_elements V
    = seqZ 0 (zdim V * ydim V * xdim V).
Proof.
  intros Hz Hy Hx. unfold FFTW_elements.
  rewrite fmap_list_bind.
  rewrite (list_bind_ext _ (fun k => seqZ (0 + k * (ydim V * xdim V)) (ydim V * xdim V)) _ (seqZ 0 (zdim V))); [| | reflexivity].
  - rewrite <- (Z2Nat.id (zdim V)) at 1 by lia.
    rewrite bind_seqZ_blocks by nia. rewrite Z2Nat.id by lia. f_equal. ring.
  - intros k. csimpl. rewrite fmap_list_bind.
    rewrite (list_bind_ext _ (fun i => seqZ (k * (ydim V * xdim V) + i * xdim V) (xdim V)) _ (seqZ 0 (ydim V))); [| | reflexivity].
    + rewrite <- (Z2Nat.id (ydim V)) at 1 by lia.
      rewrite bind_seqZ_blocks by lia. rewrite Z2Nat.id by lia. reflexivity.
    + intros i. csimpl. rewrite fmap_list_bind.
      rewrite (bind_singleton_fmap (fun j => direct_offset V k i j)).
      unfold direct_offset, YXSIZE.
      transitivity (Z.add (k * (ydim V * xdim V) + i * xdim V) <$> seqZ 0 (xdim V));
        [reflexivity |].
      rewrite fmap_add_seqZ. f_equal. lia.
Qed.

Lemma FFTW_elements_in_range {T} (V : MultidimArray T) k i j :
  (k, i, j) ∈ FFTW_elements V ->
  0 <= k < zdim V /\ 0 <= i < ydim V /\ 0 <= j < xdim V.
Proof.
  unfold FFTW_elements. intros Hin.
  apply list_elem_of_bind in Hin as (k' & Hin & Hk).
  apply list_elem_of_bind in Hin as (i' & Hin & Hi).
  apply list_elem_of_bind in Hin as (j' & Hin & Hj).
  apply list_elem_of_singleton in Hin. injection Hin as -> -> ->.
  apply elem_of_seqZ in Hk, Hi, Hj. lia.
Qed.

(** The traversal lists the physical index of each block position in turn. *)
Lemma FFTW_elements_physical {T} (V : MultidimArray T) :
  0 <= zdim V -> 0 <= ydim V -> 0 <= xdim V ->
  FFTW_elements V = physical_index V <$> seqZ 0 (zdim V * ydim V * xdim V).
Proof.
  intros Hz Hy Hx. rewrite <- FFTW_elements_offsets by assumption.
  rewrite <- list_fmap_compose.
  rewrite <- (list_fmap_id (FFTW_elements V)) at 1.
  apply Forall_fmap_ext, Forall_forall. intros [[k i] j] Hin.
  apply FFTW_elements_in_range in Hin. simpl.
  symmetry. apply physical_index_offset; lia.
Qed.



(** Writing the element that follows a prefix [pre] of the block. *)
Lemma assign_in_place {B} (V : MultidimArray B) (pre : list B) (y0 : B) (rest : list B)
    k i j (y : B) :
  direct_offset V k i j = Z.of_nat (length pre) ->
  DIRECT_A3D_ELEM_assign (with_mdata V (pre ++ y0 :: rest)) k i j y
    = Some (with_mdata V (pre ++ y :: rest)).
Proof.
  intros Hoff. unfold DIRECT_A3D_ELEM_assign.
  change (direct_offset (with_mdata V (pre ++ y0 :: rest)) k i j)
    with (direct_offset V k i j).
  rewrite Hoff. cbn [mdata with_mdata].
  replace ((0 <=? Z.of_nat (length pre))
           && (Z.of_nat (length pre) <? Z.of_nat (length (pre ++ y0 :: rest))))
    with true.
  2:{ symmetry. apply andb_true_iff. rewrite length_app. simpl. split.
      - apply Z.leb_le. lia.
      - apply Z.ltb_lt. lia. }
  rewrite Nat2Z.id. rewrite insert_app_r_alt by lia.
  rewrite Nat.sub_diag. reflexivity.
Qed.

(** The loop of the helpers, run over a stretch of the traversal that starts
    at block position [length pre], fills that stretch with the copied
    elements and leaves the prefix alone. *)
Lemma for_each_tabulate {A B} (conv : A -> B) (zero : B)
    (Min : MultidimArray A) (V : MultidimArray B) (my_rmax2 : Z) :
  forall (l : list (Z * Z * Z)) (pre : list B),
    (fun '(k, i, j) => direct_offset V k i j) <$> l
      = seqZ (Z.of_nat (length pre)) (Z.of_nat (length l)) ->
    for_each
      (fun kij =>
         (fun '(k, i, j) '(kp, ip, jp) (Mout : MultidimArray B) =>
            if kp * kp + ip * ip + jp * jp <=? my_rmax2
            then x ← A3D_ELEM Min kp ip jp;
                 DIRECT_A3D_ELEM_assign Mout k i j (conv x)
            else Some Mout)
           kij (FFTW_logical (zdim V) (ydim V) (xdim V) kij))
      l (with_mdata V (pre ++ replicate (length l) zero))
    = (cells ← mapM (copied_element conv zero Min V my_rmax2) l;
       Some (with_mdata V (pre ++ cells))).
Proof.
  induction l as [| [[k i] j] l IH]; intros pre Hoff.
  - reflexivity.
  - rewrite fmap_cons, seqZ_cons in Hoff by (simpl; lia).
    injection Hoff as Hhere Hrest.
    assert (Hstep : forall y : B,
      for_each
        (fun kij =>
           (fun '(k, i, j) '(kp, ip, jp) (Mout : MultidimArray B) =>
              if kp * kp + ip * ip + jp * jp <=? my_rmax2
              then x ← A3D_ELEM Min kp ip jp;
                   DIRECT_A3D_ELEM_assign Mout k i j (conv x)
              else Some Mout)
             kij (FFTW_logical (zdim V) (ydim V) (xdim V) kij))
        l (with_mdata V (pre ++ y :: replicate (length l) zero))
      = (cells ← mapM (copied_element conv zero Min V my_rmax2) l;
         Some (with_mdata V (pre ++ y :: cells)))).
    { intros y. specialize (IH (pre ++ [y])).
      rewrite <- !(assoc_L (++)) in IH. simpl in IH. rewrite IH.
      - destruct (mapM _ l) as [cells |]; simpl; [| reflexivity].
        now rewrite <- (assoc_L (++)).
      - rewrite Hrest. rewrite length_app. simpl. f_equal; lia. }
    cbn [for_each mapM length replicate].
    assert (Hf : copied_element conv zero Min V my_rmax2 (k, i, j) =
                 let '(kp, ip, jp) := FFTW_logical (zdim V) (ydim V) (xdim V) (k, i, j) in
                 if kp * kp + ip * ip + jp * jp <=? my_rmax2
                 then conv <$> A3D_ELEM Min kp ip jp else Some zero) by reflexivity.
    rewrite Hf. clear Hf.
    destruct (FFTW_logical (zdim V) (ydim V) (xdim V) (k, i, j)) as [[kp ip] jp].
    destruct (kp * kp + ip * ip + jp * jp <=? my_rmax2).
    + destruct (A3D_ELEM Min kp ip jp) as [x |]; [| reflexivity].
      cbn [mbind option_bind fmap option_fmap option_map].
      rewrite (assign_in_place V pre zero _ k i j (conv x) Hhere).
      cbn [mbind option_bind]. rewrite (Hstep (conv x)).
      destruct (mapM _ l); reflexivity.
    + cbn [mbind option_bind]. rewrite (Hstep zero). destruct (mapM _ l); reflexivity.
Qed.

(** Each helper's loop computes the tabulated copy. *)
Lemma decenter_loop_is_copy {A B} (conv : A -> B) (zero : B)
    (Min : MultidimArray A) (Mout : MultidimArray B) (my_rmax2 : Z) :
  well_sized Mout ->
  FOR_ALL_ELEMENTS_IN_FFTW_TRANSFORM (initZeros zero Mout)
    (fun '(k, i, j) '(kp, ip, jp) (Mout : MultidimArray B) =>
       if kp * kp + ip * ip + jp * jp <=? my_rmax2
       then x ← A3D_ELEM Min kp ip jp;
            DIRECT_A3D_ELEM_assign Mout k i j (conv x)
       else Some Mout)
    (initZeros zero Mout)
  = gridded_to_fft_layout_copy conv zero Min Mout my_rmax2.
Proof.
  intros (Hz & Hy & Hx & Hlen).
  assert (Hcount : length (FFTW_elements Mout) = length (mdata Mout)).
  { rewrite <- (length_fmap (fun '(k, i, j) => direct_offset Mout k i j)).
    rewrite FFTW_elements_offsets, length_seqZ by assumption. lia. }
  assert (Hoff : (fun '(k, i, j) => direct_offset Mout k i j) <$> FFTW_elements Mout
                 = seqZ (Z.of_nat (length (@nil B))) (Z.of_nat (length (FFTW_elements Mout)))).
  { rewrite FFTW_elements_offsets by assumption. simpl. f_equal. lia. }
  unfold FOR_ALL_ELEMENTS_IN_FFTW_TRANSFORM, gridded_to_fft_layout_copy, initZeros.
  rewrite <- Hcount at 1 2.
  etransitivity;
    [exact (for_each_tabulate conv zero Min Mout my_rmax2 (FFTW_elements Mout) [] Hoff) |].
  rewrite Hlen, (FFTW_elements_physical Mout), mapM_fmap_compose by assumption.
  reflexivity.
Qed.

Lemma decenter_fd_copy Min Mout my_rmax2 :
  well_sized Mout ->
  decenter_fd Min Mout my_rmax2
    = gridded_to_fft_layout_copy double_of_float double_zero Min Mout my_rmax2.
Proof. apply decenter_loop_is_copy. Qed.

Lemma decenter_ff_copy Min Mout my_rmax2 :
  well_sized Mout ->
  decenter_ff Min Mout my_rmax2
    = gridded_to_fft_layout_copy (fun x => x) double_zero Min Mout my_rmax2.
Proof. apply (decenter_loop_is_copy (fun x : double => x)). Qed.

Lemma decenter_ff_float_copy Min Mout my_rmax2 :
  well_sized Mout ->
  decenter_ff_float Min Mout my_rmax2
    = gridded_to_fft_layout_copy float_of_double float_zero Min Mout my_rmax2.
Proof. apply decenter_loop_is_copy. Qed.

Lemma decenter_cc_copy Min Mout my_rmax2 :
  well_sized Mout ->
  decenter_cc Min Mout my_rmax2
    = gridded_to_fft_layout_copy (fun x => x) Czero Min Mout my_rmax2.
Proof. apply (decenter_loop_is_copy (fun x : Complex => x)). Qed.

(** The block position of an in-range physical index. *)
Lemma direct_offset_range {T} (V : MultidimArray T) k i j :
  0 <= k < zdim V -> 0 <= i < ydim V -> 0 <= j < xdim V ->
  0 <= direct_offset V k i j < zdim V * ydim V * xdim V.
Proof.
  intros Hk Hi Hj. unfold direct_offset, YXSIZE.
  assert (Hrow : 0 <= i * xdim V + j < ydim V * xdim V) by nia.
  assert (Hlo : 0 <= k * (ydim V * xdim V)) by nia.
  assert (Hhi : k * (ydim V * xdim V) + ydim V * xdim V <= zdim V * ydim V * xdim V)
    by nia.
  lia.
Qed.

Lemma copy_decentered {A B} (conv : A -> B) (zero : B)
    (Min : MultidimArray A) (Mout Mres : MultidimArray B) (my_rmax2 : Z) :
  well_sized Mout ->
  gridded_to_fft_layout_copy conv zero Min Mout my_rmax2 = Some Mres ->
  decentered conv zero Min Mout my_rmax2 Mres.
Proof.
  intros (Hz & Hy & Hx & Hlen) Hcopy. unfold gridded_to_fft_layout_copy in Hcopy.
  destruct (mapM _ _) as [cells |] eqn:Hcells; [| discriminate].
  injection Hcopy as <-. apply mapM_Some_1 in Hcells.
  split; [reflexivity |]. split; [reflexivity |].
  intros k i j kp ip jp Hk Hi Hj Hlog.
  pose proof (direct_offset_range Mout k i j Hk Hi Hj) as Hn.
  assert (Hcell : exists y,
            cells !! Z.to_nat (direct_offset Mout k i j) = Some y /\
            copied_element conv zero Min Mout my_rmax2 (k, i, j) = Some y).
  { destruct (Forall2_lookup_l _ _ _ (Z.to_nat (direct_offset Mout k i j))
                (direct_offset Mout k i j) Hcells) as (y & Hy1 & Hy2).
    - apply lookup_seqZ. rewrite Z2Nat.id by lia. split; lia.
    - exists y. split; [exact Hy1 |].
      rewrite physical_index_offset in Hy2 by lia. exact Hy2. }
  destruct Hcell as (y & Hlook & Hval).
  assert (Hread : DIRECT_A3D_ELEM (with_mdata Mout cells) k i j = Some y).
  { unfold DIRECT_A3D_ELEM.
    change (direct_offset (with_mdata Mout cells) k i j) with (direct_offset Mout k i j).
    destruct (Z.leb_spec 0 (direct_offset Mout k i j)); [exact Hlook | lia]. }
  unfold copied_element in Hval. rewrite Hlog in Hval. split.
  - intros Hout. destruct (Z.leb_spec (kp * kp + ip * ip + jp * jp) my_rmax2); [lia |].
    congruence.
  - intros Hin. destruct (Z.leb_spec (kp * kp + ip * ip + jp * jp) my_rmax2); [| lia].
    destruct (A3D_ELEM Min kp ip jp) as [x |]; [| discriminate].
    exists x. split; [reflexivity |]. simpl in Hval. congruence.
Qed.

Lemma copy_defined {A B} (conv : A -> B) (zero : B)
    (Min : MultidimArray A) (Mout : MultidimArray B) (my_rmax2 : Z) :
  well_sized Mout ->
  reads_in_bounds Min Mout my_rmax2 ->
  is_Some (gridded_to_fft_layout_copy conv zero Min Mout my_rmax2).
Proof.
  intros (Hz & Hy & Hx & Hlen) Hreads. unfold gridded_to_fft_layout_copy.
  assert (Hall : is_Some (mapM (fun n => copied_element conv zero Min Mout my_rmax2
                                            (physical_index Mout n))
                               (seqZ 0 (Z.of_nat (length (mdata Mout)))))).
  { apply mapM_is_Some_2, Forall_seqZ. intros n Hn. simpl.
    rewrite Hlen in Hn.
    assert (Hx0 : 0 < xdim Mout) by nia.
    assert (Hy0 : 0 < ydim Mout) by nia.
    unfold copied_element.
    destruct (FFTW_logical _ _ _ (physical_index Mout n)) as [[kp ip] jp] eqn:Hlog.
    destruct (Z.leb_spec (kp * kp + ip * ip + jp * jp) my_rmax2) as [Hin | _];
      [| eexists; reflexivity].
    unfold physical_index, YXSIZE in Hlog.
    assert (Hrow : 0 <= n mod (ydim Mout * xdim Mout) < ydim Mout * xdim Mout)
      by (apply Z.mod_pos_bound; nia).
    destruct (Hreads (n / (ydim Mout * xdim Mout))
                     ((n mod (ydim Mout * xdim Mout)) / xdim Mout)
                     (n mod xdim Mout) kp ip jp) as [x Hx'].
    - split; [apply Z.div_pos; nia |]. apply Z.div_lt_upper_bound; nia.
    - split; [apply Z.div_pos; lia |]. apply Z.div_lt_upper_bound; nia.
    - apply Z.mod_pos_bound. lia.
    - exact Hlog.
    - exact Hin.
    - rewrite Hx'. eexists. reflexivity. }
  destruct Hall as [cells ->]. eexists. reflexivity.
Qed.

(** C6. The four helpers compute one and the same gridded-to-FFT-layout
    copy; they differ only in the element types and in the conversion applied
    to each copied element ([float] to [double], none, [double] to [float],
    none on [Complex]). *)
Theorem decenter_helpers_one_copy
    (Min_f : MultidimArray float) (Min_d : MultidimArray double)
    (Min_c : MultidimArray Complex)
    (Mout_d : MultidimArray double) (Mout_f : MultidimArray float)
    (Mout_c : MultidimArray Complex) (my_rmax2 : Z) :
  well_sized Mout_d -> well_sized Mout_f -> well_sized Mout_c ->
  decenter_fd Min_f Mout_d my_rmax2
    = gridded_to_fft_layout_copy double_of_float double_zero Min_f Mout_d my_rmax2 /\
  decenter_ff Min_d Mout_d my_rmax2
    = gridded_to_fft_layout_copy (fun x => x) double_zero Min_d Mout_d my_rmax2 /\
  decenter_ff_float Min_d Mout_f my_rmax2
    = gridded_to_fft_layout_copy float_of_double float_zero Min_d Mout_f my_rmax2 /\
  decenter_cc Min_c Mout_c my_rmax2
    = gridded_to_fft_layout_copy (fun x => x) Czero Min_c Mout_c my_rmax2.
Proof.
  intros Hd Hf Hc. repeat split.
  - now apply decenter_fd_copy.
  - now apply decenter_ff_copy.
  - now apply decenter_ff_float_copy.
  - now apply decenter_cc_copy.
Qed.

(** C7, amended. After a decenter call, of any of the four helpers, every
    output element whose logical frequency has
    [kp*kp + ip*ip + jp*jp > my_rmax2] is zero and every other element is the
    input element at that logical frequency, converted to the output element
    type: widened by [decenter_fd], narrowed by the [decenter_ff] that writes
    floats, unchanged by the other two; and the call does return when the
    frequencies it reads lie inside the input array. *)
Theorem decenter_elements
    (Min_f : MultidimArray float) (Min_d : MultidimArray double)
    (Min_c : MultidimArray Complex)
    (Mout_d : MultidimArray double) (Mout_f : MultidimArray float)
    (Mout_c : MultidimArray Complex) (my_rmax2 : Z) :
  well_sized Mout_d -> well_sized Mout_f -> well_sized Mout_c ->
  ((forall Mres, decenter_fd Min_f Mout_d my_rmax2 = Some Mres ->
      decentered double_of_float double_zero Min_f Mout_d my_rmax2 Mres) /\
   (reads_in_bounds Min_f Mout_d my_rmax2 ->
      is_Some (decenter_fd Min_f Mout_d my_rmax2))) /\
  ((forall Mres, decenter_ff Min_d Mout_d my_rmax2 = Some Mres ->
      decentered (fun x => x) double_zero Min_d Mout_d my_rmax2 Mres) /\
   (reads_in_bounds Min_d Mout_d my_rmax2 ->
      is_Some (decenter_ff Min_d Mout_d my_rmax2))) /\
  ((forall Mres, decenter_ff_float Min_d Mout_f my_rmax2 = Some Mres ->
      decentered float_of_double float_zero Min_d Mout_f my_rmax2 Mres) /\
   (reads_in_bounds Min_d Mout_f my_rmax2 ->
      is_Some (decenter_ff_float Min_d Mout_f my_rmax2))) /\
  ((forall Mres, decenter_cc Min_c Mout_c my_rmax2 = Some Mres ->
      decentered (fun x => x) Czero Min_c Mout_c my_rmax2 Mres) /\
   (reads_in_bounds Min_c Mout_c my_rmax2 ->
      is_Some (decenter_cc Min_c Mout_c my_rmax2))).
Proof.
  intros Hd Hf Hc.
  rewrite decenter_fd_copy, decenter_ff_copy, decenter_ff_float_copy, decenter_cc_copy
    by assumption.
  assert (Hone : forall A B (conv : A -> B) zero Min (Mout : MultidimArray B),
            well_sized Mout ->
            (forall Mres, gridded_to_fft_layout_copy conv zero Min Mout my_rmax2 = Some Mres ->
               decentered conv zero Min Mout my_rmax2 Mres) /\
            (reads_in_bounds Min Mout my_rmax2 ->
               is_Some (gridded_to_fft_layout_copy conv zero Min Mout my_rmax2))).
  { intros A B conv zero Min Mout Hw. split.
    - intros Mres. now apply copy_decentered.
    - now apply copy_defined. }
  split; [now apply Hone |]. split; [now apply Hone |].
  split; now apply Hone.
Qed.

(** The conversion in C7 matters only for the overload that narrows: as soon
    as two doubles narrow to the same float, the element written for one of
    them does not widen back to the element read. *)
Remark narrowing_is_not_exact (x y : double) :
  x <> y -> float_of_double x = float_of_double y ->
  ~ (double_of_float (float_of_double x) = x /\
     double_of_float (float_of_double y) = y).
Proof. intros Hne Heq [Hx Hy]. apply Hne. now rewrite <- Hx, <- Hy, Heq. Qed.

End DecenterFacts.

(** C7, as stated, fails for the [decenter_ff] that narrows: with
    [my_rmax2 = 0] the element at the origin lies within the sphere, the
    input holds [2^24 + 1] there and the output holds [2^24], the nearest
    [float]. *)
Lemma decenter_ff_float_rounds_element :
  exists Mres x y,
    @decenter_ff_float fftw_half_layout integer_precisions odd_integer single_float 0
      = Some Mres /\
    @FFTW_logical fftw_half_layout 1 1 1 (0, 0, 0) = (0, 0, 0) /\
    0 * 0 + 0 * 0 + 0 * 0 <= 0 /\
    A3D_ELEM odd_integer 0 0 0 = Some x /\
    DIRECT_A3D_ELEM Mres 0 0 0 = Some y /\
    x = 16777217 /\ y = 16777216 /\
    @double_of_float integer_precisions y <> x.
Proof.
  exists (mkArray 1 1 1 0 0 0 [16777216]), 16777217, 16777216.
  vm_compute. repeat split; discriminate.
Qed.

(** ** Cell values *)

Lemma Complex_eq (a b : Complex) : real a = real b -> imag a = imag b -> a = b.
Proof. destruct a, b. simpl. now intros -> ->. Qed.

#[export] Instance Complex_cell_laws : CellLaws Complex.
Proof.
  split; intros; apply Complex_eq; simpl; ring.
Qed.

#[export] Instance DOUBLE_cell_laws : CellLaws DOUBLE.
Proof.
  split; intros; simpl; ring.
Qed.

Lemma DOUBLE_half_twice : (DOUBLE_half + DOUBLE_half = 1)%Qc.
Proof. apply Qc_is_canon. reflexivity. Qed.

Section CellFacts.
Context {T : Type} `{CellLaws T}.

Lemma cell_half_double (a : T) : cell_scale DOUBLE_half (cell_add a a) = a.
Proof.
  rewrite cell_scale_add_r, <- cell_scale_add_l, DOUBLE_half_twice.
  apply cell_scale_1.
Qed.

Lemma same_voxel_spec k i j kp ip jp :
  same_voxel k i j kp ip jp = true <-> k = kp /\ i = ip /\ j = jp.
Proof. unfold same_voxel. rewrite !andb_true_iff, !Z.eqb_eq. tauto. Qed.

Lemma grid_set_eq (G : Grid T) kp ip jp v : grid_set G kp ip jp v kp ip jp = v.
Proof.
  unfold grid_set. destruct (same_voxel kp ip jp kp ip jp) eqn:E; [reflexivity |].
  assert (same_voxel kp ip jp kp ip jp = true) by now apply same_voxel_spec.
  congruence.
Qed.

Lemma grid_set_ne (G : Grid T) kp ip jp v k i j :
  (k, i, j) <> (kp, ip, jp) -> grid_set G kp ip jp v k i j = G k i j.
Proof.
  intros Hne. unfold grid_set. destruct (same_voxel k i j kp ip jp) eqn:E; [| reflexivity].
  apply same_voxel_spec in E as (-> & -> & ->). contradiction.
Qed.

(** *** Hermitian averaging of one grid *)

Lemma hermitian_target_conj (G0 : Grid T) kp ip :
  cell_conj (hermitian_target G0 kp ip) = hermitian_target G0 (- kp) (- ip).
Proof.
  unfold hermitian_target. rewrite cell_conj_scale, cell_conj_add, cell_conj_invol.
  rewrite !Z.opp_involutive. now rewrite cell_add_comm.
Qed.

Lemma hermitian_average_value (G0 G : Grid T) kp ip :
  traversing G0 G ->
  cell_scale DOUBLE_half (cell_add (G kp ip 0) (cell_conj (G (- kp) (- ip) 0)))
    = hermitian_target G0 kp ip.
Proof.
  intros [_ Hpairs]. destruct (Hpairs kp ip) as [[E1 E2] | [E1 E2]].
  - now rewrite E1, E2.
  - rewrite E1, E2, <- hermitian_target_conj, cell_conj_invol. apply cell_half_double.
Qed.

Lemma hermitian_average_settles (G0 G : Grid T) kp ip :
  traversing G0 G -> settled G0 (hermitian_average G kp ip) kp ip.
Proof.
  intros Htrav. unfold hermitian_average.
  rewrite (hermitian_average_value G0 G kp ip Htrav). split.
  - destruct (decide ((kp, ip, 0) = (- kp, - ip, 0))) as [E | Hne].
    + assert (kp = 0) as -> by (injection E; lia).
      assert (ip = 0) as -> by (injection E; lia).
      change (- 0) with 0. rewrite grid_set_eq. apply (hermitian_target_conj G0 0 0).
    + rewrite grid_set_ne by exact Hne. apply grid_set_eq.
  - rewrite grid_set_eq. apply hermitian_target_conj.
Qed.

Lemma hermitian_average_elsewhere (G : Grid T) kp ip k i j :
  (k, i, j) <> (kp, ip, 0) -> (k, i, j) <> (- kp, - ip, 0) ->
  hermitian_average G kp ip k i j = G k i j.
Proof.
  intros H1 H2. unfold hermitian_average. now rewrite !grid_set_ne by assumption.
Qed.

Lemma hermitian_average_keeps_settled (G0 G : Grid T) kp ip k i :
  traversing G0 G -> settled G0 G k i -> settled G0 (hermitian_average G kp ip) k i.
Proof.
  intros Htrav Hset.
  destruct (decide ((k, i) = (kp, ip))) as [E | Hne1].
  { injection E as -> ->. now apply hermitian_average_settles. }
  destruct (decide ((k, i) = (- kp, - ip))) as [E | Hne2].
  { injection E as -> ->.
    destruct (hermitian_average_settles G0 G kp ip Htrav) as [S1 S2].
    split; [exact S2 |]. rewrite !Z.opp_involutive. exact S1. }
  destruct Hset as [S1 S2]. split.
  - rewrite hermitian_average_elsewhere; [exact S1 | congruence | congruence].
  - rewrite hermitian_average_elsewhere; [exact S2 | |]; intros E; injection E; intros; 
      [apply Hne2 | apply Hne1]; f_equal; lia.
Qed.

Lemma hermitian_average_traversing (G0 G : Grid T) kp ip :
  traversing G0 G -> traversing G0 (hermitian_average G kp ip).
Proof.
  intros Htrav. split.
  - intros k i j Hj. rewrite hermitian_average_elsewhere by congruence.
    now apply Htrav.
  - intros k i. destruct (proj2 Htrav k i) as [[E1 E2] | Hset].
    2:{ right. now apply hermitian_average_keeps_settled. }
    destruct (decide ((k, i) = (kp, ip))) as [E | Hne1].
    { injection E as -> ->. right. now apply hermitian_average_settles. }
    destruct (decide ((k, i) = (- kp, - ip))) as [E | Hne2].
    { injection E as -> ->. right.
      destruct (hermitian_average_settles G0 G kp ip Htrav) as [S1 S2].
      split; [exact S2 |]. rewrite !Z.opp_involutive. exact S1. }
    left. split.
    + rewrite hermitian_average_elsewhere; [exact E1 | congruence | congruence].
    + rewrite hermitian_average_elsewhere; [exact E2 | |]; intros E; injection E; intros;
        [apply Hne2 | apply Hne1]; f_equal; lia.
Qed.

(** Traversing a list of pairs settles each of them. *)
Lemma hermitian_fold_settles (G0 : Grid T) (plane : list (Z * Z)) :
  forall G, traversing G0 G ->
    let G' := fold_left (fun G '(kp, ip) => hermitian_average G kp ip) plane G in
    traversing G0 G' /\
    (forall kp ip, (kp, ip) ∈ plane \/ settled G0 G kp ip -> settled G0 G' kp ip).
Proof.
  induction plane as [| [kq iq] plane IH]; intros G Htrav; simpl.
  - split; [exact Htrav |]. intros kp ip [Hin | Hset]; [| exact Hset].
    now apply not_elem_of_nil in Hin.
  - destruct (IH (hermitian_average G kq iq)
                 (hermitian_average_traversing G0 G kq iq Htrav)) as [Ht Hs].
    split; [exact Ht |]. intros kp ip Hcase. apply Hs.
    destruct Hcase as [Hin | Hset].
    + apply elem_of_cons in Hin as [E | Hin]; [| now left].
      injection E as -> ->. right. now apply hermitian_average_settles.
    + right. now apply hermitian_average_keeps_settled.
Qed.

Lemma traversing_start (G0 : Grid T) : traversing G0 G0.
Proof. split; [reflexivity |]. intros. left. split; reflexivity. Qed.

(** The outcome for one grid: on the listed pairs the plane is Hermitian and
    holds the averages of the values before the call; off the plane nothing
    changed. *)
Lemma hermitian_fold_result (G0 : Grid T) (plane : list (Z * Z)) :
  let G' := fold_left (fun G '(kp, ip) => hermitian_average G kp ip) plane G0 in
  (forall kp ip, (kp, ip) ∈ plane ->
     G' kp ip 0 = cell_conj (G' (- kp) (- ip) 0) /\
     G' kp ip 0 = cell_scale DOUBLE_half
                    (cell_add (G0 kp ip 0) (cell_conj (G0 (- kp) (- ip) 0)))) /\
  (forall kp ip jp, jp <> 0 -> G' kp ip jp = G0 kp ip jp).
Proof.
  destruct (hermitian_fold_settles G0 plane G0 (traversing_start G0)) as [Ht Hs].
  split.
  - intros kp ip Hin. destruct (Hs kp ip (or_introl Hin)) as [S1 S2].
    split; [| exact S1].
    rewrite S1, S2, <- hermitian_target_conj. now rewrite cell_conj_invol.
  - apply Ht.
Qed.

End CellFacts.

(** ** [enforceHermitianSymmetry] *)

Lemma enforceHermitianSymmetry_fst plane : forall D W,
  fst (enforceHermitianSymmetry plane (D, W))
    = fold_left (fun G '(kp, ip) => hermitian_average G kp ip) plane D.
Proof.
  unfold enforceHermitianSymmetry.
  induction plane as [| [kp ip] plane IH]; intros D W; simpl; [reflexivity |].
  apply IH.
Qed.

Lemma enforceHermitianSymmetry_snd plane : forall D W,
  snd (enforceHermitianSymmetry plane (D, W))
    = fold_left (fun G '(kp, ip) => hermitian_average G kp ip) plane W.
Proof.
  unfold enforceHermitianSymmetry.
  induction plane as [| [kp ip] plane IH]; intros D W; simpl; [reflexivity |].
  apply IH.
Qed.

(** C3. After [enforceHermitianSymmetry], at every voxel [(kp, ip, 0)] of the
    plane, [D(kp, ip, 0) = conj(D(-kp, -ip, 0))] and
    [W(kp, ip, 0) = W(-kp, -ip, 0)]; the value written is the average of the
    two conjugate partners before the call (for [D]) and of the two weights
    (for [W]); voxels with [jp <> 0] are unchanged. *)
Theorem enforceHermitianSymmetry_closure (plane : list (Z * Z))
    (D : Grid Complex) (W : Grid DOUBLE) :
  let D' := fst (enforceHermitianSymmetry plane (D, W)) in
  let W' := snd (enforceHermitianSymmetry plane (D, W)) in
  (forall kp ip, (kp, ip) ∈ plane ->
     D' kp ip 0 = conj (D' (- kp) (- ip) 0) /\
     W' kp ip 0 = W' (- kp) (- ip) 0 /\
     D' kp ip 0 = Cscale DOUBLE_half (Cadd (D kp ip 0) (conj (D (- kp) (- ip) 0))) /\
     W' kp ip 0 = Qcmult DOUBLE_half (Qcplus (W kp ip 0) (W (- kp) (- ip) 0))) /\
  (forall kp ip jp, jp <> 0 ->
     D' kp ip jp = D kp ip jp /\ W' kp ip jp = W kp ip jp).
Proof.
  intros D' W'. subst D' W'.
  rewrite enforceHermitianSymmetry_fst, enforceHermitianSymmetry_snd.
  destruct (hermitian_fold_result D plane) as [HD HD'].
  destruct (hermitian_fold_result W plane) as [HW HW'].
  split.
  - intros kp ip Hin.
    destruct (HD kp ip Hin) as [HD1 HD2]. destruct (HW kp ip Hin) as [HW1 HW2].
    repeat split; assumption.
  - intros kp ip jp Hjp. split; [now apply HD' | now apply HW'].
Qed.

(** ** Deposits *)

Section DepositFacts.
Context {T : Type} `{CellLaws T}.












End DepositFacts.

(** ** [backproject] *)







(** ** Integers among the rationals *)








Section SymmetriseFacts.
Context {T : Type} `{CellLaws T}.


(** *** Sums of cell values *)

Lemma fold_left_cell_add {A} (f : A -> T) (l : list A) : forall a,
  fold_left (fun acc x => cell_add acc (f x)) l a = cell_add a (cell_sum (map f l)).
Proof.
  induction l as [| x l IH]; intros a; simpl.
  - now rewrite cell_add_zero_r.
  - rewrite IH. now rewrite cell_add_assoc.
Qed.






(** *** Reading a grid through the fold *)






(** *** One pass of [symmetrise] over one grid *)







End SymmetriseFacts.

(** ** [symmetrise] *)



(** It also fails inside the sphere when the [jp = 0] plane of the data is
    not Hermitian (C4 about z) ... *)
Lemma symmetrise_twice_differs_non_hermitian :
  let S := map Matrix_of_IntMatrix [int_rot_z_90; int_rot_z_180; int_rot_z_270] in
  fst (symmetrise S 1 (symmetrise S 1 (imaginary_spike, grid_zero))) 0 1 0
  <>
  grid_scale (DOUBLE_of_int (Z.of_nat (length S) + 1))
    (fst (symmetrise S 1 (imaginary_spike, grid_zero))) 0 1 0.
Proof.
  intros S Heq. apply (f_equal (fun c => this (imag c))) in Heq.
  vm_compute in Heq. discriminate.
Qed.

(** ... when the list with the identity is not closed under composition (the
    three-fold rotation about the diagonal without its square) ... *)
Lemma symmetrise_twice_differs_not_closed :
  let S := map Matrix_of_IntMatrix [int_rot_diagonal] in
  fst (symmetrise S 1 (symmetrise S 1 (axis_spike, grid_zero))) 0 0 1
  <>
  grid_scale (DOUBLE_of_int (Z.of_nat (length S) + 1))
    (fst (symmetrise S 1 (axis_spike, grid_zero))) 0 0 1.
Proof.
  intros S Heq. apply (f_equal (fun c => this (real c))) in Heq.
  vm_compute in Heq. discriminate.
Qed.

(** ... and when a rotation sends grid points between grid points, so that
    each pass interpolates (C2 about a tilted axis). *)
Lemma symmetrise_twice_differs_off_grid :
  fst (symmetrise [rot_tilted_180] 1 (symmetrise [rot_tilted_180] 1 (two_spikes, grid_zero)))
      0 0 1
  <>
  grid_scale (DOUBLE_of_int (Z.of_nat (length [rot_tilted_180]) + 1))
    (fst (symmetrise [rot_tilted_180] 1 (two_spikes, grid_zero))) 0 0 1.
Proof.
  intros Heq. apply (f_equal (fun c => this (real c))) in Heq.
  vm_compute in Heq. discriminate.
Qed.


(* ================================================================== *)
(** * Part III. The theorems at concrete inputs *)
(* ================================================================== *)

Lemma set2DFourierTransform_dispatch_witness :
  let b2 := marking_member 102 in
  let b3 := marking_member 103 in
  let bp := marking_member 203 in
  set2DFourierTransform b2 b3 bp sample_image Matrix_identity false None (sample_object 2)
    = (Returned tt, set_r_min_nn 102 (sample_object 2)) /\
  set2DFourierTransform b2 b3 bp sample_image Matrix_identity false None (sample_object 3)
    = (Returned tt, set_r_min_nn 203 (sample_object 3)) /\
  set2DFourierTransform b2 b3 bp sample_volume Matrix_identity false None (sample_object 3)
    = (Returned tt, set_r_min_nn 103 (sample_object 3)).
Proof.
  intros b2 b3 bp. split; [| split].
  - apply (proj1 (set2DFourierTransform_dispatch b2 b3 bp sample_image Matrix_identity
                    false None (sample_object 2))); reflexivity.
  - apply (proj1 (proj2 (set2DFourierTransform_dispatch b2 b3 bp sample_image
                    Matrix_identity false None (sample_object 3)))); reflexivity.
  - apply (proj2 (proj2 (set2DFourierTransform_dispatch b2 b3 bp sample_volume
                    Matrix_identity false None (sample_object 3)))); reflexivity.
Defined.

Lemma set2DFourierTransform_mismatch_witness :
  (exists msg,
     set2DFourierTransform (marking_member 102) (marking_member 103) (marking_member 203)
       sample_volume Matrix_identity false None (sample_object 2)
     = (Thrown msg, sample_object 2)) /\
  (exists msg,
     set2DFourierTransform (marking_member 102) (marking_member 103) (marking_member 203)
       sample_image Matrix_identity false None (sample_object 1)
     = (Thrown msg, sample_object 1)).
Proof.
  split.
  - apply set2DFourierTransform_mismatch. left. split; [reflexivity | discriminate].
  - apply set2DFourierTransform_mismatch. right.
    split; [reflexivity | split; discriminate].
Defined.

Lemma operator_assign_spec_witness :
  operator_assign 2%positive 2%positive sample_store = Some sample_store /\
  exists h', operator_assign 1%positive 2%positive sample_store = Some h' /\
    (exists tgt', h' !! 1%positive = Some tgt' /\ same_fields tgt' (sample_object 3)) /\
    h' !! 2%positive = Some (sample_object 3).
Proof.
  split.
  - apply (proj1 (operator_assign_spec sample_store 2%positive 2%positive
                    (sample_object 3) (sample_object 3) eq_refl eq_refl)).
    reflexivity.
  - destruct (proj2 (operator_assign_spec sample_store 1%positive 2%positive
                       (sample_object 2) (sample_object 3) eq_refl eq_refl))
      as (h' & Hh & Htgt & Hsrc & _).
    + discriminate.
    + exists h'. split; [exact Hh |]. split; [exact Htgt | exact Hsrc].
Defined.

Lemma enforceHermitianSymmetry_closure_witness :
  (0, -1) ∈ jp0_plane 2 /\
  let D' := fst (enforceHermitianSymmetry (jp0_plane 2) (imaginary_spike, unit_weight_grid)) in
  let W' := snd (enforceHermitianSymmetry (jp0_plane 2) (imaginary_spike, unit_weight_grid)) in
  D' 0 (-1) 0 = conj (D' 0 1 0) /\
  W' 0 (-1) 0 = W' 0 1 0 /\
  D' 0 (-1) 0 = Cscale DOUBLE_half (Cadd (imaginary_spike 0 (-1) 0) (conj (imaginary_spike 0 1 0))) /\
  W' 0 (-1) 0 = Qcmult DOUBLE_half (Qcplus (unit_weight_grid 0 (-1) 0) (unit_weight_grid 0 1 0)).
Proof.
  assert (Hin : (0, -1) ∈ jp0_plane 2).
  { apply list_elem_of_In. vm_compute. right. right. left. reflexivity. }
  split; [exact Hin |].
  exact (proj1 (enforceHermitianSymmetry_closure (jp0_plane 2) imaginary_spike
                  unit_weight_grid) 0 (-1) Hin).
Defined.









Lemma fftw_reals_well_sized : well_sized fftw_reals.
Proof. unfold well_sized. simpl. lia. Defined.

Lemma fftw_complex_well_sized : well_sized fftw_complex.
Proof. unfold well_sized. simpl. lia. Defined.

Lemma decenter_helpers_one_copy_witness :
  @decenter_fd fftw_half_layout exact_precisions centred_reals fftw_reals 1
    = @gridded_to_fft_layout_copy fftw_half_layout _ _ (fun x : Qc => x) 0%Qc
        centred_reals fftw_reals 1 /\
  @decenter_ff fftw_half_layout exact_precisions centred_reals fftw_reals 1
    = @gridded_to_fft_layout_copy fftw_half_layout _ _ (fun x : Qc => x) 0%Qc
        centred_reals fftw_reals 1 /\
  @decenter_ff_float fftw_half_layout exact_precisions centred_reals fftw_reals 1
    = @gridded_to_fft_layout_copy fftw_half_layout _ _ (fun x : Qc => x) 0%Qc
        centred_reals fftw_reals 1 /\
  @decenter_cc fftw_half_layout centred_complex fftw_complex 1
    = @gridded_to_fft_layout_copy fftw_half_layout _ _ (fun x : Complex => x) Czero
        centred_complex fftw_complex 1.
Proof.
  exact (@decenter_helpers_one_copy fftw_half_layout exact_precisions
           centred_reals centred_reals centred_complex
           fftw_reals fftw_reals fftw_complex 1
           fftw_reals_well_sized fftw_reals_well_sized fftw_complex_well_sized).
Defined.

Lemma centred_reads_in_bounds {A B} (Min : MultidimArray A) (Mout : MultidimArray B) :
  (zdim Mout, ydim Mout, xdim Mout) = (3, 3, 2) ->
  (zdim Min, ydim Min, xdim Min) = (3, 3, 2) ->
  (zinit Min, yinit Min, xinit Min) = (-1, -1, 0) ->
  length (mdata Min) = 18%nat ->
  @reads_in_bounds fftw_half_layout A B Min Mout 1.
Proof.
  intros Hout Hin Hinit Hlen k i j kp ip jp Hk Hi Hj Hlog _.
  injection Hout as Hz Hy Hx. rewrite Hz, Hy, Hx in *.
  injection Hin as Hz' Hy' Hx'. injection Hinit as Hz0 Hy0 Hx0.
  simpl in Hlog. injection Hlog as <- <- <-.
  unfold A3D_ELEM, DIRECT_A3D_ELEM, direct_offset, YXSIZE.
  rewrite Hz0, Hy0, Hx0, Hy', Hx'.
  assert (Hrange :
    0 <= ((if k <? 2 then k else k - 3) - -1) * (3 * 2)
         + ((if i <? 2 then i else i - 3) - -1) * 2 + (j - 0) < 18).
  { destruct (Z.ltb_spec k 2), (Z.ltb_spec i 2); lia. }
  destruct (Z.leb_spec 0 (((if k <? 2 then k else k - 3) - -1) * (3 * 2)
                          + ((if i <? 2 then i else i - 3) - -1) * 2 + (j - 0)));
    [| lia].
  apply lookup_lt_is_Some. lia.
Defined.

Lemma decenter_elements_witness :
  (exists Mres,
     @decenter_fd fftw_half_layout exact_precisions centred_reals fftw_reals 1 = Some Mres /\
     @decentered fftw_half_layout _ _ (fun x : Qc => x) 0%Qc centred_reals fftw_reals 1 Mres) /\
  (exists Mres,
     @decenter_cc fftw_half_layout centred_complex fftw_complex 1 = Some Mres /\
     @decentered fftw_half_layout _ _ (fun x : Complex => x) Czero
       centred_complex fftw_complex 1 Mres).
Proof.
  destruct (@decenter_elements fftw_half_layout exact_precisions
              centred_reals centred_reals centred_complex
              fftw_reals fftw_reals fftw_complex 1
              fftw_reals_well_sized fftw_reals_well_sized fftw_complex_well_sized)
    as [[Hpost_fd Hdef_fd] [_ [_ [Hpost_cc Hdef_cc]]]].
  split.
  - destruct (Hdef_fd (centred_reads_in_bounds centred_reals fftw_reals
                         eq_refl eq_refl eq_refl eq_refl)) as [Mres Hres].
    exists Mres. split; [exact Hres | exact (Hpost_fd Mres Hres)].
  - destruct (Hdef_cc (centred_reads_in_bounds centred_complex fftw_complex
                         eq_refl eq_refl eq_refl eq_refl)) as [Mres Hres].
    exists Mres. split; [exact Hres | exact (Hpost_cc Mres Hres)].
Defined.

(** The helpers run on the sample arrays: the seven frequencies within
    [my_rmax2 = 1] are copied, the other eleven elements are zero. *)
Example decenter_ff_sample :
  mdata <$> @decenter_ff fftw_half_layout exact_precisions centred_reals fftw_reals 1
  = Some (DOUBLE_of_int <$> [9; 10; 11; 0; 7; 0; 15; 0; 0; 0; 0; 0; 3; 0; 0; 0; 0; 0]).
Proof. vm_compute. reflexivity. Qed.

(** The constructor run with every optional argument left out: the table is
    initialised once, with radius [1.9 * 2], alpha 15, order 0 and 10000
    bins, and the interpolator is [TRILINEAR]. *)
Example ctor_defaults :
  let bp := BackProjector_ctor (sample_object 0) 8 3 "c1"%string
              None None None None None None None in
  tab_ftblob bp = [(Q2Qc (19 # 5), DOUBLE_15, 0, 10000)] /\
  interpolator bp = @TRILINEAR recording_collaborators /\
  (ori_size bp, ref_dim bp, data_dim bp, padding_factor bp, r_min_nn bp) = (8, 3, 2, 2, 10).
Proof.
  split; [| split; reflexivity].
  cbn. repeat f_equal. apply Qc_is_canon. reflexivity.
Qed.

(** [enforceHermitianSymmetry] run on a grid whose plane holds the single
    value [i] at [(0, 1, 0)]: both sides of the pair receive half of it, one
    conjugated. *)
Example enforceHermitianSymmetry_sample :
  let D' := fst (enforceHermitianSymmetry (jp0_plane 2) (imaginary_spike, unit_weight_grid)) in
  D' 0 1 0 = mkComplex 0%Qc DOUBLE_half /\
  D' 0 (-1) 0 = mkComplex 0%Qc (- DOUBLE_half)%Qc.
Proof.
  split; apply Complex_eq; apply Qc_is_canon; vm_compute; reflexivity.
Qed.

(* ================================================================== *)
(** * Part IV. Further properties of the inline members *)
(* ================================================================== *)

Section LifetimeFacts.
Context `{Collaborators}.
Variable MultidimArray_clear : MultidimArray DOUBLE -> MultidimArray DOUBLE.
Variable Projector_clear : ProjectorPart -> ProjectorPart.

(** After an assignment between two distinct objects the target is the
    source: the operator copies every member of the class. *)
Lemma operator_assign_distinct (h : gmap address BackProjector) this op tgt src :
  h !! this = Some tgt -> h !! op = Some src -> op <> this ->
  operator_assign this op h = Some (<[this := src]> h).
Proof.
  intros Hthis Hop Hne. unfold operator_assign.
  destruct (decide (op <> this)) as [_ | Heq]; [| contradiction].
  rewrite Hop, Hthis. simpl. destruct src. reflexivity.
Qed.

Lemma operator_assign_self (h : gmap address BackProjector) this tgt :
  h !! this = Some tgt -> operator_assign this this h = Some h.
Proof.
  intros Hthis. unfold operator_assign.
  destruct (decide (this <> this)) as [Hne | _]; [congruence |].
  now rewrite Hthis.
Qed.

(** X3. Multiple assignment [a = b = c]: whatever the aliasing between the
    three objects, afterwards [a], [b] and [c] all hold the value [c] had,
    and no other object has changed. *)
Theorem operator_assign_chain (h : gmap address BackProjector) (a b c : address)
    (va vb vc : BackProjector) :
  h !! a = Some va -> h !! b = Some vb -> h !! c = Some vc ->
  exists h2,
    (operator_assign b c h ≫= operator_assign a b) = Some h2 /\
    h2 !! a = Some vc /\ h2 !! b = Some vc /\ h2 !! c = Some vc /\
    (forall x, x <> a -> x <> b -> h2 !! x = h !! x).
Proof.
  intros Ha Hb Hc.
  destruct (decide (c = b)) as [-> | Hcb].
  - assert (vb = vc) as -> by congruence.
    rewrite (operator_assign_self h b vc Hb). simpl.
    destruct (decide (b = a)) as [-> | Hba].
    + rewrite (operator_assign_self h a vc Hb). exists h. repeat split; auto.
    + rewrite (operator_assign_distinct h a b va vc Ha Hb Hba).
      eexists. split; [reflexivity |]. repeat split.
      * apply lookup_insert_eq.
      * rewrite lookup_insert_ne by congruence. exact Hb.
      * rewrite lookup_insert_ne by congruence. exact Hb.
      * intros x Hxa _. now rewrite lookup_insert_ne by congruence.
  - rewrite (operator_assign_distinct h b c vb vc Hb Hc Hcb). simpl.
    destruct (decide (b = a)) as [-> | Hba].
    + rewrite (operator_assign_self (<[a := vc]> h) a vc) by apply lookup_insert_eq.
      eexists. split; [reflexivity |]. repeat split.
      * apply lookup_insert_eq.
      * apply lookup_insert_eq.
      * rewrite lookup_insert_ne by congruence. exact Hc.
      * intros x Hxa _. now rewrite lookup_insert_ne by congruence.
    + rewrite (operator_assign_distinct (<[b := vc]> h) a b va vc).
      * eexists. split; [reflexivity |]. repeat split.
        -- apply lookup_insert_eq.
        -- rewrite lookup_insert_ne by congruence. apply lookup_insert_eq.
        -- destruct (decide (a = c)) as [-> | Hac].
           ++ apply lookup_insert_eq.
           ++ rewrite !lookup_insert_ne by congruence. exact Hc.
        -- intros x Hxa Hxb. now rewrite !lookup_insert_ne by congruence.
      * rewrite lookup_insert_ne by congruence. exact Ha.
      * apply lookup_insert_eq.
      * exact Hba.
Qed.

(** X4. Assigning again changes nothing: the store reached by [this = op] is
    a fixed point of [this = op]. *)
Theorem operator_assign_idempotent (h h1 : gmap address BackProjector) this op :
  operator_assign this op h = Some h1 ->
  operator_assign this op h1 = Some h1.
Proof.
  intros Hfirst. destruct (decide (op = this)) as [-> | Hne].
  - unfold operator_assign in Hfirst.
    destruct (decide (this <> this)) as [Hne | _]; [congruence |].
    destruct (h !! this) as [tgt |] eqn:Hthis; [| discriminate].
    injection Hfirst as <-. now apply (operator_assign_self h this tgt).
  - assert (exists tgt src, h !! this = Some tgt /\ h !! op = Some src)
      as (tgt & src & Hthis & Hop).
    { unfold operator_assign in Hfirst.
      destruct (decide (op <> this)) as [_ | Heq]; [| contradiction].
      destruct (h !! op) as [src |]; [| discriminate].
      destruct (h !! this) as [tgt |]; [| discriminate]. eauto. }
    rewrite (operator_assign_distinct h this op tgt src Hthis Hop Hne) in Hfirst.
    injection Hfirst as <-.
    rewrite (operator_assign_distinct (<[this := src]> h) this op src src).
    + now rewrite insert_insert_eq.
    + apply lookup_insert_eq.
    + rewrite lookup_insert_ne by congruence. exact Hop.
    + exact Hne.
Qed.

Lemma BackProjector_ext (o o' : BackProjector) :
  Projector_of o = Projector_of o' -> weight o = weight o' ->
  tab_ftblob o = tab_ftblob o' -> SL o = SL o' -> o = o'.
Proof.
  destruct o, o'. unfold Projector_of. simpl.
  intros Hp -> -> ->. injection Hp as -> -> -> -> -> -> -> -> ->. reflexivity.
Qed.

Lemma clear_parts (this : BackProjector) :
  tab_ftblob (clear MultidimArray_clear Projector_clear this) = tab_ftblob this /\
  SL (clear MultidimArray_clear Projector_clear this) = SL this /\
  weight (clear MultidimArray_clear Projector_clear this)
    = MultidimArray_clear (weight this) /\
  Projector_of (clear MultidimArray_clear Projector_clear this)
    = Projector_clear (Projector_of this).
Proof.
  unfold clear, Projector_of, with_Projector. simpl.
  repeat split. now destruct (Projector_clear _).
Qed.

(** X7. Clearing twice is clearing once, as soon as the two [clear] members it
    calls have that property. *)
Theorem clear_idempotent (this : BackProjector) :
  (forall w, MultidimArray_clear (MultidimArray_clear w) = MultidimArray_clear w) ->
  (forall p, Projector_clear (Projector_clear p) = Projector_clear p) ->
  clear MultidimArray_clear Projector_clear (clear MultidimArray_clear Projector_clear this)
    = clear MultidimArray_clear Projector_clear this.
Proof.
  intros Hw Hp.
  destruct (clear_parts this) as (Ht & Hs & Hwt & Hpr).
  destruct (clear_parts (clear MultidimArray_clear Projector_clear this))
    as (Ht2 & Hs2 & Hwt2 & Hpr2).
  apply BackProjector_ext.
  - now rewrite Hpr2, Hpr, Hp.
  - now rewrite Hwt2, Hwt, Hw.
  - now rewrite Ht2.
  - now rewrite Hs2.
Qed.

(** X5. The copy constructor builds a perfect copy: whatever the object under
    construction held and whatever the [clear] members do, it ends up equal
    to the source, and the source and every other object are unchanged. *)
Theorem copy_ctor_perfect_copy (h : gmap address BackProjector) this op tgt src :
  h !! this = Some tgt -> h !! op = Some src -> op <> this ->
  BackProjector_copy_ctor MultidimArray_clear Projector_clear this op h
    = Some (<[this := src]> h).
Proof.
  intros Hthis Hop Hne. unfold BackProjector_copy_ctor. rewrite Hthis. simpl.
  rewrite (operator_assign_distinct _ this op
             (clear MultidimArray_clear Projector_clear tgt) src).
  - now rewrite insert_insert_eq.
  - apply lookup_insert_eq.
  - rewrite lookup_insert_ne by congruence. exact Hop.
  - exact Hne.
Qed.

(** Construction does not allocate the grids: [data], [weight],
    [pad_size] and [r_max] are as the base and member constructors left
    them, whatever the arguments; every other member holds its argument or
    the default of the signature. *)
Lemma ctor_members (this : BackProjector) o r fn ip pf rn bo br ba dd :
  let bp := BackProjector_ctor this o r fn ip pf rn bo br ba dd in
  (data bp = data this /\ weight bp = weight this /\
   pad_size bp = pad_size this /\ r_max bp = r_max this) /\
  ori_size bp = o /\ ref_dim bp = r /\ data_dim bp = default 2 dd /\
  SL bp = read_sym_file fn (SL this) /\
  padding_factor bp = default 2 pf /\ interpolator bp = default TRILINEAR ip /\
  r_min_nn bp = default 10 rn.
Proof. repeat split. Qed.

Section DispatchMore.
Variables backrotate2D backrotate3D backproject :
  MultidimArray Complex -> Matrix2D -> bool -> option (MultidimArray DOUBLE) -> Call unit.

#[local] Abbreviation set2D := (set2DFourierTransform backrotate2D backrotate3D backproject).

Lemma set2DFourierTransform_cases img_in A inv Mweight (s : BackProjector) :
  set2D img_in A inv Mweight s =
    if getDim img_in =? 3 then
      if ref_dim s =? 3 then backrotate3D img_in A inv Mweight s
      else (Thrown "Backprojector::set3DFourierTransform%%ERROR: Dimension of the data array should be 3", s)
    else if ref_dim s =? 2 then backrotate2D img_in A inv Mweight s
    else if ref_dim s =? 3 then backproject img_in A inv Mweight s
    else (Thrown "Backprojector::set2DSlice%%ERROR: Dimension of the data array should be 2 or 3", s).
Proof.
  unfold set2DFourierTransform.
  destruct (getDim img_in =? 3);
    rewrite (call_bind_returned read_ref_dim _ s (ref_dim s) s eq_refl).
  - destruct (ref_dim s =? 3); simpl.
    + now rewrite (call_bind_returned (mret tt) _ s tt s eq_refl).
    + now apply call_bind_thrown.
  - destruct (ref_dim s) as [| p | p]; try reflexivity.
    destruct p as [[| |] | [| |] |]; reflexivity.
Qed.

(** X2. An input that is not 3D, whether a line or an image, takes the 2D
    path: it goes to [backrotate2D] when [ref_dim = 2] and to [backproject]
    when [ref_dim = 3], and the outcome of that member is passed on as it is.
    Each mismatch has its own message and leaves the object untouched: the
    one for a non-3D input says the dimension should be 2 or 3, the one for a
    3D input says it should be 3. *)
Theorem set2DFourierTransform_table img_in A inv Mweight (s : BackProjector) :
  (getDim img_in <> 3 -> ref_dim s = 2 ->
     set2D img_in A inv Mweight s = backrotate2D img_in A inv Mweight s) /\
  (getDim img_in <> 3 -> ref_dim s = 3 ->
     set2D img_in A inv Mweight s = backproject img_in A inv Mweight s) /\
  (getDim img_in <> 3 -> ref_dim s <> 2 -> ref_dim s <> 3 ->
     set2D img_in A inv Mweight s
     = (Thrown "Backprojector::set2DSlice%%ERROR: Dimension of the data array should be 2 or 3", s)) /\
  (getDim img_in = 3 -> ref_dim s <> 3 ->
     set2D img_in A inv Mweight s
     = (Thrown "Backprojector::set3DFourierTransform%%ERROR: Dimension of the data array should be 3", s)).
Proof.
  rewrite set2DFourierTransform_cases.
  split; [| split; [| split]].
  - intros Hdim Href. rewrite Href.
    destruct (Z.eqb_spec (getDim img_in) 3); [contradiction | reflexivity].
  - intros Hdim Href. rewrite Href.
    destruct (Z.eqb_spec (getDim img_in) 3); [contradiction | reflexivity].
  - intros Hdim H2 H3.
    destruct (Z.eqb_spec (getDim img_in) 3); [contradiction |].
    destruct (Z.eqb_spec (ref_dim s) 2); [contradiction |].
    destruct (Z.eqb_spec (ref_dim s) 3); [contradiction | reflexivity].
  - intros Hdim H3. rewrite Hdim. simpl.
    destruct (Z.eqb_spec (ref_dim s) 3); [contradiction | reflexivity].
Qed.

(** X1. The [_ref_dim] given to the constructor decides what the object
    accepts: built for 3D references it backprojects every non-3D input and
    back-rotates 3D ones; built for 2D references it back-rotates non-3D
    inputs and rejects 3D ones; built with any other value it rejects
    everything. *)
Theorem ctor_then_set2DFourierTransform (this : BackProjector)
    o r fn ip pf rn bo br ba dd img_in A inv Mweight :
  let bp := BackProjector_ctor this o r fn ip pf rn bo br ba dd in
  (r = 3 ->
     (getDim img_in = 3 ->
        set2D img_in A inv Mweight bp = backrotate3D img_in A inv Mweight bp) /\
     (getDim img_in <> 3 ->
        set2D img_in A inv Mweight bp = backproject img_in A inv Mweight bp)) /\
  (r = 2 ->
     (getDim img_in = 3 ->
        exists msg, set2D img_in A inv Mweight bp = (Thrown msg, bp)) /\
     (getDim img_in <> 3 ->
        set2D img_in A inv Mweight bp = backrotate2D img_in A inv Mweight bp)) /\
  (r <> 2 -> r <> 3 ->
     exists msg, set2D img_in A inv Mweight bp = (Thrown msg, bp)).
Proof.
  intros bp. rewrite set2DFourierTransform_cases.
  assert (Hr : ref_dim bp = r) by reflexivity. rewrite Hr.
  split; [| split].
  - intros ->. split; intros Hdim.
    + now rewrite Hdim.
    + destruct (Z.eqb_spec (getDim img_in) 3); [contradiction | reflexivity].
  - intros ->. split; intros Hdim.
    + rewrite Hdim. simpl. eexists. reflexivity.
    + destruct (Z.eqb_spec (getDim img_in) 3); [contradiction | reflexivity].
  - intros H2 H3.
    destruct (Z.eqb_spec r 3); [contradiction |].
    destruct (Z.eqb_spec r 2); [contradiction |].
    destruct (getDim img_in =? 3); eexists; reflexivity.
Qed.

End DispatchMore.

End LifetimeFacts.


Section DecenterMore.
Context `{FftwLayout} `{Precisions}.

Lemma for_each_ext {I S} (body body' : I -> S -> option S) (l : list I) :
  (forall x s, body x s = body' x s) ->
  forall s, for_each body l s = for_each body' l s.
Proof.
  intros Hext. induction l as [| x l IH]; intros s; simpl; [reflexivity |].
  rewrite Hext. destruct (body' x s); simpl; [apply IH | reflexivity].
Qed.

Lemma for_each_skip {I S} (body : I -> S -> option S) (l : list I) :
  (forall x s, body x s = Some s) -> forall s, for_each body l s = Some s.
Proof.
  intros Hskip. induction l as [| x l IH]; intros s; simpl; [reflexivity |].
  rewrite Hskip. simpl. apply IH.
Qed.

Lemma for_each_fmap {I S S'} (g : S -> S') (body : I -> S -> option S)
    (body' : I -> S' -> option S') (l : list I) :
  (forall x s, body' x (g s) = g <$> body x s) ->
  forall s, for_each body' l (g s) = g <$> for_each body l s.
Proof.
  intros Hsim. induction l as [| x l IH]; intros s; simpl; [reflexivity |].
  rewrite Hsim. destruct (body x s) as [s1 |]; simpl; [apply IH | reflexivity].
Qed.

Lemma A3D_ELEM_array_map {T U} (f : T -> U) (v : MultidimArray T) k i j :
  A3D_ELEM (array_map f v) k i j = f <$> A3D_ELEM v k i j.
Proof.
  unfold A3D_ELEM, DIRECT_A3D_ELEM, array_map, with_mdata, direct_offset, YXSIZE.
  cbn [zdim ydim xdim zinit yinit xinit mdata].
  destruct (0 <=? _); [apply list_lookup_fmap | reflexivity].
Qed.

Lemma assign_array_map {T U} (f : T -> U) (v : MultidimArray T) k i j x :
  DIRECT_A3D_ELEM_assign (array_map f v) k i j (f x)
    = array_map f <$> DIRECT_A3D_ELEM_assign v k i j x.
Proof.
  unfold DIRECT_A3D_ELEM_assign, array_map, with_mdata, direct_offset, YXSIZE.
  cbn [zdim ydim xdim zinit yinit xinit mdata]. rewrite length_fmap.
  destruct (_ && _); [| reflexivity].
  cbn [fmap option_fmap option_map zdim ydim xdim zinit yinit xinit mdata].
  now rewrite list_fmap_insert.
Qed.

Lemma initZeros_same_shape {T} (zero : T) (v v' : MultidimArray T) :
  same_shape v v' -> initZeros zero v = initZeros zero v'.
Proof.
  destruct v, v'. unfold same_shape, initZeros, with_mdata. simpl.
  intros (Hd & Hi & Hl). injection Hd as -> -> ->. injection Hi as -> -> ->.
  now rewrite Hl.
Qed.

Lemma initZeros_array_map {T U} (f : T -> U) (zero : T) (zero' : U)
    (v : MultidimArray T) (v' : MultidimArray U) :
  same_shape v' v -> f zero = zero' ->
  initZeros zero' v' = array_map f (initZeros zero v).
Proof.
  destruct v, v'. unfold same_shape, initZeros, array_map, with_mdata. simpl.
  intros (Hd & Hi & Hl) <-. injection Hd as -> -> ->. injection Hi as -> -> ->.
  now rewrite Hl, fmap_replicate.
Qed.

(** With a negative radius no frequency is within the sphere: the loop
    writes nothing and reads nothing. *)
Lemma decenter_loop_negative {A B} (conv : A -> B) (Min : MultidimArray A)
    (V s : MultidimArray B) (my_rmax2 : Z) :
  my_rmax2 < 0 ->
  FOR_ALL_ELEMENTS_IN_FFTW_TRANSFORM V
    (fun '(k, i, j) '(kp, ip, jp) (Mout : MultidimArray B) =>
       if kp * kp + ip * ip + jp * jp <=? my_rmax2
       then x ← A3D_ELEM Min kp ip jp;
            DIRECT_A3D_ELEM_assign Mout k i j (conv x)
       else Some Mout)
    s = Some s.
Proof.
  intros Hneg. unfold FOR_ALL_ELEMENTS_IN_FFTW_TRANSFORM. apply for_each_skip.
  intros [[k i] j] M. destruct (FFTW_logical _ _ _ _) as [[kp ip] jp].
  destruct (Z.leb_spec (kp * kp + ip * ip + jp * jp) my_rmax2); [nia | reflexivity].
Qed.

(** X9. A negative [my_rmax2] gives an all-zero output: each helper returns
    the zeroed output array, whatever the input array is (it is not read). *)
Theorem decenter_negative_radius
    (Min_f : MultidimArray float) (Min_d : MultidimArray double)
    (Min_c : MultidimArray Complex)
    (Mout_d : MultidimArray double) (Mout_f : MultidimArray float)
    (Mout_c : MultidimArray Complex) (my_rmax2 : Z) :
  my_rmax2 < 0 ->
  decenter_fd Min_f Mout_d my_rmax2 = Some (initZeros double_zero Mout_d) /\
  decenter_ff Min_d Mout_d my_rmax2 = Some (initZeros double_zero Mout_d) /\
  decenter_ff_float Min_d Mout_f my_rmax2 = Some (initZeros float_zero Mout_f) /\
  decenter_cc Min_c Mout_c my_rmax2 = Some (initZeros Czero Mout_c).
Proof.
  intros Hneg. split; [| split; [| split]].
  - now apply (decenter_loop_negative double_of_float).
  - now apply (decenter_loop_negative (fun x : double => x)).
  - now apply (decenter_loop_negative float_of_double).
  - now apply (decenter_loop_negative (fun x : Complex => x)).
Qed.

(** X10. The prior contents of the output array do not matter: two output
    arrays of the same shape, origin and size give the same result. *)
Theorem decenter_ignores_prior_contents
    (Min_f : MultidimArray float) (Min_d : MultidimArray double)
    (Min_c : MultidimArray Complex)
    (Mout_d Mout_d' : MultidimArray double) (Mout_f Mout_f' : MultidimArray float)
    (Mout_c Mout_c' : MultidimArray Complex) (my_rmax2 : Z) :
  same_shape Mout_d Mout_d' -> same_shape Mout_f Mout_f' -> same_shape Mout_c Mout_c' ->
  decenter_fd Min_f Mout_d my_rmax2 = decenter_fd Min_f Mout_d' my_rmax2 /\
  decenter_ff Min_d Mout_d my_rmax2 = decenter_ff Min_d Mout_d' my_rmax2 /\
  decenter_ff_float Min_d Mout_f my_rmax2 = decenter_ff_float Min_d Mout_f' my_rmax2 /\
  decenter_cc Min_c Mout_c my_rmax2 = decenter_cc Min_c Mout_c' my_rmax2.
Proof.
  intros Hd Hf Hc.
  unfold decenter_fd, decenter_ff, decenter_ff_float, decenter_cc. cbv zeta.
  rewrite (initZeros_same_shape double_zero Mout_d Mout_d' Hd).
  rewrite (initZeros_same_shape float_zero Mout_f Mout_f' Hf).
  rewrite (initZeros_same_shape Czero Mout_c Mout_c' Hc).
  repeat split.
Qed.

Lemma copy_defined_iff {A B} (conv : A -> B) (zero : B)
    (Min : MultidimArray A) (Mout : MultidimArray B) (my_rmax2 : Z) :
  well_sized Mout ->
  is_Some (gridded_to_fft_layout_copy conv zero Min Mout my_rmax2)
  <-> reads_in_bounds Min Mout my_rmax2.
Proof.
  intros Hw. split; [| now apply copy_defined].
  intros [Mres Hres]. destruct (copy_decentered conv zero Min Mout Mres my_rmax2 Hw Hres)
    as (_ & _ & Hcells).
  intros k i j kp ip jp Hk Hi Hj Hlog Hin.
  destruct (proj2 (Hcells k i j kp ip jp Hk Hi Hj Hlog) Hin) as (x & Hx & _).
  rewrite Hx. eexists. reflexivity.
Qed.

(** X8. A helper returns exactly when every frequency within the sphere lies
    inside the input block: otherwise it reads outside the block, which has no
    defined behaviour. *)
Theorem decenter_defined_iff
    (Min_f : MultidimArray float) (Min_d : MultidimArray double)
    (Min_c : MultidimArray Complex)
    (Mout_d : MultidimArray double) (Mout_f : MultidimArray float)
    (Mout_c : MultidimArray Complex) (my_rmax2 : Z) :
  well_sized Mout_d -> well_sized Mout_f -> well_sized Mout_c ->
  (is_Some (decenter_fd Min_f Mout_d my_rmax2) <-> reads_in_bounds Min_f Mout_d my_rmax2) /\
  (is_Some (decenter_ff Min_d Mout_d my_rmax2) <-> reads_in_bounds Min_d Mout_d my_rmax2) /\
  (is_Some (decenter_ff_float Min_d Mout_f my_rmax2)
     <-> reads_in_bounds Min_d Mout_f my_rmax2) /\
  (is_Some (decenter_cc Min_c Mout_c my_rmax2) <-> reads_in_bounds Min_c Mout_c my_rmax2).
Proof.
  intros Hd Hf Hc.
  rewrite decenter_fd_copy, decenter_ff_copy, decenter_ff_float_copy, decenter_cc_copy
    by assumption.
  split; [| split; [| split]]; now apply copy_defined_iff.
Qed.

Lemma copy_keeps_shape {A B} (conv : A -> B) (zero : B)
    (Min : MultidimArray A) (Mout Mres : MultidimArray B) (my_rmax2 : Z) :
  well_sized Mout ->
  gridded_to_fft_layout_copy conv zero Min Mout my_rmax2 = Some Mres ->
  well_sized Mres /\ same_shape Mres Mout.
Proof.
  intros (Hz & Hy & Hx & Hlen) Hcopy. unfold gridded_to_fft_layout_copy in Hcopy.
  destruct (mapM _ _) as [cells |] eqn:Hcells; [| discriminate].
  injection Hcopy as <-. apply mapM_Some_1, Forall2_length in Hcells.
  rewrite length_seqZ in Hcells.
  unfold well_sized, same_shape, with_mdata. simpl.
  repeat split; try assumption; lia.
Qed.

(** X11. The helpers keep the output array's shape: the array returned has the
    dimensions, the origin and the number of elements of the one passed in. *)
Theorem decenter_keeps_shape
    (Min_f : MultidimArray float) (Min_d : MultidimArray double)
    (Min_c : MultidimArray Complex)
    (Mout_d : MultidimArray double) (Mout_f : MultidimArray float)
    (Mout_c : MultidimArray Complex) (my_rmax2 : Z) :
  well_sized Mout_d -> well_sized Mout_f -> well_sized Mout_c ->
  (forall Mres, decenter_fd Min_f Mout_d my_rmax2 = Some Mres ->
     well_sized Mres /\ same_shape Mres Mout_d) /\
  (forall Mres, decenter_ff Min_d Mout_d my_rmax2 = Some Mres ->
     well_sized Mres /\ same_shape Mres Mout_d) /\
  (forall Mres, decenter_ff_float Min_d Mout_f my_rmax2 = Some Mres ->
     well_sized Mres /\ same_shape Mres Mout_f) /\
  (forall Mres, decenter_cc Min_c Mout_c my_rmax2 = Some Mres ->
     well_sized Mres /\ same_shape Mres Mout_c).
Proof.
  intros Hd Hf Hc.
  rewrite decenter_fd_copy, decenter_ff_copy, decenter_ff_float_copy, decenter_cc_copy
    by assumption.
  split; [| split; [| split]]; intros Mres; now apply copy_keeps_shape.
Qed.

(** X12. The conversions commute with the copy: [decenter_fd] is [decenter_ff]
    on the widened input, and the narrowing overload of [decenter_ff] gives
    the narrowed result of the double-precision one when zero narrows to
    zero. *)
Theorem decenter_commutes_with_conversions
    (Min_f : MultidimArray float) (Min_d : MultidimArray double)
    (Mout_d : MultidimArray double) (Mout_f : MultidimArray float) (my_rmax2 : Z) :
  decenter_fd Min_f Mout_d my_rmax2
    = decenter_ff (array_map double_of_float Min_f) Mout_d my_rmax2 /\
  (same_shape Mout_f Mout_d -> float_of_double double_zero = float_zero ->
   decenter_ff_float Min_d Mout_f my_rmax2
     = array_map float_of_double <$> decenter_ff Min_d Mout_d my_rmax2).
Proof.
  split.
  - unfold decenter_fd, decenter_ff, FOR_ALL_ELEMENTS_IN_FFTW_TRANSFORM. cbv zeta.
    apply for_each_ext. intros [[k i] j] M.
    destruct (FFTW_logical _ _ _ _) as [[kp ip] jp].
    destruct (_ <=? _); [| reflexivity].
    rewrite A3D_ELEM_array_map. now destruct (A3D_ELEM Min_f kp ip jp).
  - intros Hshape Hzero.
    unfold decenter_ff_float, decenter_ff, FOR_ALL_ELEMENTS_IN_FFTW_TRANSFORM. cbv zeta.
    rewrite (initZeros_array_map float_of_double double_zero float_zero Mout_d Mout_f
               Hshape Hzero).
    apply (for_each_fmap (array_map float_of_double)).
    intros [[k i] j] M.
    destruct (FFTW_logical _ _ _ _) as [[kp ip] jp].
    destruct (_ <=? _); [| reflexivity].
    destruct (A3D_ELEM Min_d kp ip jp) as [x |]; [| reflexivity].
    apply assign_array_map.
Qed.

End DecenterMore.


Section DecenterLocality.
Context `{FftwLayout} `{Precisions}.

Lemma decenter_loop_local {A B} (conv : A -> B) (Min Min' : MultidimArray A)
    (V s : MultidimArray B) (my_rmax2 : Z) :
  (forall kp ip jp, kp * kp + ip * ip + jp * jp <= my_rmax2 ->
     A3D_ELEM Min kp ip jp = A3D_ELEM Min' kp ip jp) ->
  FOR_ALL_ELEMENTS_IN_FFTW_TRANSFORM V
    (fun '(k, i, j) '(kp, ip, jp) (Mout : MultidimArray B) =>
       if kp * kp + ip * ip + jp * jp <=? my_rmax2
       then x ← A3D_ELEM Min kp ip jp;
            DIRECT_A3D_ELEM_assign Mout k i j (conv x)
       else Some Mout)
    s
  = FOR_ALL_ELEMENTS_IN_FFTW_TRANSFORM V
      (fun '(k, i, j) '(kp, ip, jp) (Mout : MultidimArray B) =>
         if kp * kp + ip * ip + jp * jp <=? my_rmax2
         then x ← A3D_ELEM Min' kp ip jp;
              DIRECT_A3D_ELEM_assign Mout k i j (conv x)
         else Some Mout)
      s.
Proof.
  intros Hsame. unfold FOR_ALL_ELEMENTS_IN_FFTW_TRANSFORM. apply for_each_ext.
  intros [[k i] j] M. destruct (FFTW_logical _ _ _ _) as [[kp ip] jp].
  destruct (Z.leb_spec (kp * kp + ip * ip + jp * jp) my_rmax2) as [Hin | _];
    [| reflexivity].
  now rewrite (Hsame kp ip jp Hin).
Qed.

(** X13. The helpers read the input only within the sphere: two inputs that
    agree at every logical frequency with [kp*kp + ip*ip + jp*jp <= my_rmax2]
    (one of them may even lack the others) give the same outcome. *)
Theorem decenter_reads_only_sphere
    (Min_f Min_f' : MultidimArray float) (Min_d Min_d' : MultidimArray double)
    (Min_c Min_c' : MultidimArray Complex)
    (Mout_d : MultidimArray double) (Mout_f : MultidimArray float)
    (Mout_c : MultidimArray Complex) (my_rmax2 : Z) :
  (forall kp ip jp, kp * kp + ip * ip + jp * jp <= my_rmax2 ->
     A3D_ELEM Min_f kp ip jp = A3D_ELEM Min_f' kp ip jp /\
     A3D_ELEM Min_d kp ip jp = A3D_ELEM Min_d' kp ip jp /\
     A3D_ELEM Min_c kp ip jp = A3D_ELEM Min_c' kp ip jp) ->
  decenter_fd Min_f Mout_d my_rmax2 = decenter_fd Min_f' Mout_d my_rmax2 /\
  decenter_ff Min_d Mout_d my_rmax2 = decenter_ff Min_d' Mout_d my_rmax2 /\
  decenter_ff_float Min_d Mout_f my_rmax2 = decenter_ff_float Min_d' Mout_f my_rmax2 /\
  decenter_cc Min_c Mout_c my_rmax2 = decenter_cc Min_c' Mout_c my_rmax2.
Proof.
  intros Hsame. split; [| split; [| split]].
  - apply (decenter_loop_local double_of_float). intros. now apply Hsame.
  - apply (decenter_loop_local (fun x : double => x)). intros. now apply Hsame.
  - apply (decenter_loop_local float_of_double). intros. now apply Hsame.
  - apply (decenter_loop_local (fun x : Complex => x)). intros. now apply Hsame.
Qed.

End DecenterLocality.

(** ** The further properties at concrete inputs *)

Lemma ctor_then_set2DFourierTransform_witness :
  let bp := BackProjector_ctor (sample_object 0) 8 3 "c1"%string
              None None None None None None None in
  set2DFourierTransform (marking_member 102) (marking_member 103) (marking_member 203)
    sample_image Matrix_identity false None bp
  = (Returned tt, set_r_min_nn 203 bp).
Proof.
  intros bp.
  apply (proj2 (proj1 (ctor_then_set2DFourierTransform
                         (marking_member 102) (marking_member 103) (marking_member 203)
                         (sample_object 0) 8 3 "c1"%string
                         None None None None None None None
                         sample_image Matrix_identity false None) eq_refl)).
  discriminate.
Defined.

Lemma operator_assign_chain_witness :
  exists h2,
    (operator_assign 2%positive 3%positive three_objects
       ≫= operator_assign 1%positive 2%positive) = Some h2 /\
    h2 !! 1%positive = Some (sample_object 1) /\
    h2 !! 2%positive = Some (sample_object 1) /\
    h2 !! 3%positive = Some (sample_object 1).
Proof.
  destruct (operator_assign_chain three_objects 1%positive 2%positive 3%positive
              (sample_object 2) (sample_object 3) (sample_object 1)
              eq_refl eq_refl eq_refl) as (h2 & Hrun & Ha & Hb & Hc & _).
  exists h2. split; [exact Hrun |]. split; [exact Ha |]. split; [exact Hb | exact Hc].
Defined.

Lemma operator_assign_idempotent_witness :
  operator_assign 1%positive 2%positive (<[1%positive := sample_object 3]> sample_store)
    = Some (<[1%positive := sample_object 3]> sample_store).
Proof.
  apply (operator_assign_idempotent sample_store). vm_compute. reflexivity.
Defined.

Lemma copy_ctor_perfect_copy_witness :
  BackProjector_copy_ctor emptying_clear resetting_clear 1%positive 2%positive sample_store
    = Some (<[1%positive := sample_object 3]> sample_store).
Proof.
  apply (copy_ctor_perfect_copy emptying_clear resetting_clear sample_store
           1%positive 2%positive (sample_object 2) (sample_object 3)).
  - reflexivity.
  - reflexivity.
  - discriminate.
Defined.

Lemma clear_idempotent_witness :
  clear emptying_clear resetting_clear
    (clear emptying_clear resetting_clear (sample_object 3))
  = clear emptying_clear resetting_clear (sample_object 3).
Proof.
  apply clear_idempotent.
  - intros w. reflexivity.
  - intros p. reflexivity.
Defined.

Lemma decenter_defined_iff_witness :
  is_Some (@decenter_fd fftw_half_layout exact_precisions centred_reals fftw_reals 1) /\
  ~ @reads_in_bounds fftw_half_layout _ _ single_real fftw_reals 1.
Proof.
  destruct (@decenter_defined_iff fftw_half_layout exact_precisions
              centred_reals single_real centred_complex
              fftw_reals fftw_reals fftw_complex 1
              fftw_reals_well_sized fftw_reals_well_sized fftw_complex_well_sized)
    as (Hfd & Hff & _ & _).
  split.
  - apply Hfd. apply centred_reads_in_bounds; reflexivity.
  - intros Hreads. apply Hff in Hreads. destruct Hreads as [Mres Hres].
    vm_compute in Hres. discriminate.
Defined.

Lemma decenter_negative_radius_witness :
  @decenter_ff fftw_half_layout exact_precisions single_real fftw_reals (-1)
    = Some (initZeros 0%Qc fftw_reals) /\
  @decenter_cc fftw_half_layout centred_complex fftw_complex (-1)
    = Some (initZeros Czero fftw_complex).
Proof.
  destruct (@decenter_negative_radius fftw_half_layout exact_precisions
              centred_reals single_real centred_complex
              fftw_reals fftw_reals fftw_complex (-1) eq_refl)
    as (_ & Hff & _ & Hcc).
  split; [exact Hff | exact Hcc].
Defined.

Lemma same_shape_after_zeroing {T} (zero : T) (v : MultidimArray T) :
  same_shape v (initZeros zero v).
Proof.
  unfold same_shape, initZeros, with_mdata. simpl.
  split; [reflexivity |]. split; [reflexivity |]. now rewrite length_replicate.
Defined.

Lemma decenter_ignores_prior_contents_witness :
  @decenter_ff fftw_half_layout exact_precisions centred_reals fftw_reals 1
    = @decenter_ff fftw_half_layout exact_precisions centred_reals
        (initZeros 0%Qc fftw_reals) 1 /\
  @decenter_cc fftw_half_layout centred_complex fftw_complex 1
    = @decenter_cc fftw_half_layout centred_complex (initZeros Czero fftw_complex) 1.
Proof.
  destruct (@decenter_ignores_prior_contents fftw_half_layout exact_precisions
              centred_reals centred_reals centred_complex
              fftw_reals (initZeros 0%Qc fftw_reals)
              fftw_reals (initZeros 0%Qc fftw_reals)
              fftw_complex (initZeros Czero fftw_complex) 1
              (same_shape_after_zeroing _ _) (same_shape_after_zeroing _ _)
              (same_shape_after_zeroing _ _))
    as (_ & Hff & _ & Hcc).
  split; [exact Hff | exact Hcc].
Defined.

Lemma decenter_keeps_shape_witness :
  exists Mres,
    @decenter_ff fftw_half_layout exact_precisions centred_reals fftw_reals 1 = Some Mres /\
    well_sized Mres /\ same_shape Mres fftw_reals.
Proof.
  destruct (@decenter_keeps_shape fftw_half_layout exact_precisions
              centred_reals centred_reals centred_complex
              fftw_reals fftw_reals fftw_complex 1
              fftw_reals_well_sized fftw_reals_well_sized fftw_complex_well_sized)
    as (_ & Hff & _ & _).
  destruct (@decenter_ff fftw_half_layout exact_precisions centred_reals fftw_reals 1)
    as [Mres |] eqn:Hres.
  - exists Mres. split; [reflexivity |]. now apply Hff.
  - vm_compute in Hres. discriminate.
Defined.

Lemma decenter_commutes_with_conversions_witness :
  @decenter_fd fftw_half_layout exact_precisions centred_reals fftw_reals 1
    = @decenter_ff fftw_half_layout exact_precisions
        (array_map (fun x : Qc => x) centred_reals) fftw_reals 1 /\
  @decenter_ff_float fftw_half_layout exact_precisions centred_reals fftw_reals 1
    = array_map (fun x : Qc => x)
        <$> @decenter_ff fftw_half_layout exact_precisions centred_reals fftw_reals 1.
Proof.
  destruct (@decenter_commutes_with_conversions fftw_half_layout exact_precisions
              centred_reals centred_reals fftw_reals fftw_reals 1) as (Hfd & Hnarrow).
  split; [exact Hfd |]. apply Hnarrow.
  - unfold same_shape. split; [reflexivity |]. split; reflexivity.
  - reflexivity.
Defined.

Lemma set2DFourierTransform_table_witness :
  set2DFourierTransform (marking_member 102) (marking_member 103) (marking_member 203)
    sample_line Matrix_identity false None (sample_object 3)
  = (Returned tt, set_r_min_nn 203 (sample_object 3)) /\
  set2DFourierTransform (marking_member 102) (marking_member 103) (marking_member 203)
    sample_line Matrix_identity false None (sample_object 1)
  = (Thrown "Backprojector::set2DSlice%%ERROR: Dimension of the data array should be 2 or 3",
     sample_object 1).
Proof.
  split.
  - apply (proj1 (proj2 (set2DFourierTransform_table
                           (marking_member 102) (marking_member 103) (marking_member 203)
                           sample_line Matrix_identity false None (sample_object 3))));
      [discriminate | reflexivity].
  - apply (proj1 (proj2 (proj2 (set2DFourierTransform_table
                           (marking_member 102) (marking_member 103) (marking_member 203)
                           sample_line Matrix_identity false None (sample_object 1)))));
      discriminate.
Defined.

Lemma decenter_reads_only_sphere_witness :
  @decenter_ff fftw_half_layout exact_precisions centred_reals fftw_reals 0
    = @decenter_ff fftw_half_layout exact_precisions origin_only fftw_reals 0.
Proof.
  apply (@decenter_reads_only_sphere fftw_half_layout exact_precisions
           centred_reals origin_only centred_reals origin_only
           centred_complex centred_complex fftw_reals fftw_reals fftw_complex 0).
  intros kp ip jp Hin.
  assert (kp = 0) as -> by nia. assert (ip = 0) as -> by nia.
  assert (jp = 0) as -> by nia.
  split; [reflexivity |]. split; reflexivity.
Defined.
